(** * Proof-of-work registration client: Register.js, Login.js, App.js, api.js

    A shallow embedding of the React client of the repository and the
    properties of its proof-of-work solver, its registration handler and its
    session handling.

    - JavaScript strings are sequences of UTF-16 code units, [list Z].
    - [crypto.subtle.digest('SHA-256', ...)] is the platform's SHA-256
      (FIPS 180-4), written out on 32-bit words held in [Z].
    - [localStorage] is a finite map from strings to strings.
    - The outcome of every HTTP call is an input of the model. *)

From Stdlib Require Import ZArith Lia String Ascii.
From stdpp Require Import strings gmap list.

Local Open Scope Z_scope.

(** ** JavaScript strings *)

Definition jsstring : Type := list Z.

(** A literal of the source, one code unit per character. *)
Definition lit (s : string) : jsstring :=
  map (fun a => Z.of_N (N_of_ascii a)) (list_ascii_of_string s).

(** [String.prototype.startsWith]: [prefix] is matched code unit by code unit
    against the start of [s]. *)
Fixpoint startsWith (s prefix : jsstring) {struct prefix} : bool :=
  match prefix, s with
  | [], _ => true
  | _ :: _, [] => false
  | p :: prefix', c :: s' => (c =? p) && startsWith s' prefix'
  end.

(** Errors a handler can catch.  [AxiosError d] carries what
    [error.response?.data?.detail] evaluates to: [None] when there is no
    response, no body or no [detail] field. *)
Inductive JsError : Type :=
  | AxiosError (detail : option jsstring)
  | RangeError
  | TypeError
  | QuotaExceededError.

(** The longest string the engine builds: 2^29 - 24 code units in V8, the
    engine of Chrome and Node, on 64-bit machines.  Other engines have other
    limits, all of them far above the 64 characters of a digest. *)
Definition String_maxLength : Z := 2 ^ 29 - 24.

(** [String.prototype.repeat] on a one-character string: a negative count
    throws a RangeError, and so does a count that gives a string longer than
    the engine builds ("Invalid string length"). *)
Definition String_repeat (c : Z) (count : Z) : JsError + jsstring :=
  if count <? 0 then inl RangeError
  else if String_maxLength <? count then inl RangeError
  else inr (repeat c (Z.to_nat count)).

(** [String.prototype.padStart] with a one-character filler. *)
Definition padStart (s : jsstring) (targetLength : nat) (c : Z) : jsstring :=
  repeat c (targetLength - length s) ++ s.

(** Decimal digits of a non-negative integer, most significant first. *)
Fixpoint digits_aux (fuel : nat) (n : Z) (acc : jsstring) : jsstring :=
  match fuel with
  | O => acc
  | S fuel' =>
      let acc' := (48 + n mod 10) :: acc in
      if n <? 10 then acc' else digits_aux fuel' (n / 10) acc'
  end.

Definition digits (n : Z) : jsstring :=
  digits_aux (S (Z.to_nat (Z.log2 n))) n [].

(** [Number.prototype.toString()] and the template-literal conversion
    [`${nonce}`] of an integer below 10^21: the decimal digits, with a minus
    sign for a negative number. *)
Definition Number_toString (n : Z) : jsstring :=
  if n <? 0 then 45 :: digits (- n) else digits n.

(** The value a string of decimal digits denotes. *)
Definition decimal_value (s : jsstring) : Z :=
  fold_left (fun a c => 10 * a + (c - 48)) s 0.

(** [b.toString(16)] for a byte. *)
Definition hex_digit (d : Z) : Z := if d <? 10 then 48 + d else 87 + d.

Definition byte_toString16 (b : Z) : jsstring :=
  if b <? 16 then [hex_digit b] else [hex_digit (b / 16); hex_digit (b mod 16)].

(** [hashArray.map(b => b.toString(16).padStart(2, '0')).join('')] *)
Definition hex_of_bytes (hashArray : list Z) : jsstring :=
  concat (map (fun b => padStart (byte_toString16 b) 2 48) hashArray).

(** UTF-8 as the Encoding Standard words it, to compare [TextEncoder_encode]
    with.  A string is first read as scalar values: a high surrogate followed
    by a low one is the code point 0x10000 + (high - 0xD800) * 0x400 +
    (low - 0xDC00), any other surrogate is U+FFFD. *)
Fixpoint scalar_values (s : jsstring) : list Z :=
  match s with
  | [] => []
  | c :: r =>
      if (0xD800 <=? c) && (c <=? 0xDBFF) then
        match r with
        | d :: r' =>
            if (0xDC00 <=? d) && (d <=? 0xDFFF)
            then (0x10000 + (c - 0xD800) * 0x400 + (d - 0xDC00)) :: scalar_values r'
            else 0xFFFD :: scalar_values r
        | [] => [0xFFFD]
        end
      else if (0xDC00 <=? c) && (c <=? 0xDFFF) then 0xFFFD :: scalar_values r
      else c :: scalar_values r
  end.

(** A scalar value up to U+007F is one byte; up to U+07FF, U+FFFF and
    U+10FFFF it is a lead byte 0xC0, 0xE0 or 0xF0 plus its top bits, followed
    by one, two or three bytes 0x80 plus six bits each. *)
Definition utf8_of_scalar (cp : Z) : list Z :=
  if cp <? 0x80 then [cp]
  else if cp <? 0x800 then [0xC0 + cp / 64; 0x80 + cp mod 64]
  else if cp <? 0x10000
  then [0xE0 + cp / 4096; 0x80 + cp / 64 mod 64; 0x80 + cp mod 64]
  else [0xF0 + cp / 262144; 0x80 + cp / 4096 mod 64; 0x80 + cp / 64 mod 64;
        0x80 + cp mod 64].

Definition utf8_of_string (s : jsstring) : list Z :=
  flat_map utf8_of_scalar (scalar_values s).

(** A well-formed string: every code unit has 16 bits. *)
Definition code_units (s : jsstring) : Prop := Forall (λ c, 0 <= c < 65536) s.

(** [new TextEncoder().encode(s)]: UTF-8, a surrogate pair giving one
    four-byte sequence and a lone surrogate the replacement character. *)
Definition is_high_surrogate (c : Z) : bool := (0xD800 <=? c) && (c <=? 0xDBFF).
Definition is_low_surrogate (c : Z) : bool := (0xDC00 <=? c) && (c <=? 0xDFFF).

Definition utf8_2 (c : Z) : list Z :=
  [Z.lor 0xC0 (Z.shiftr c 6); Z.lor 0x80 (Z.land c 0x3F)].
Definition utf8_3 (c : Z) : list Z :=
  [Z.lor 0xE0 (Z.shiftr c 12); Z.lor 0x80 (Z.land (Z.shiftr c 6) 0x3F);
   Z.lor 0x80 (Z.land c 0x3F)].
Definition utf8_4 (c : Z) : list Z :=
  [Z.lor 0xF0 (Z.shiftr c 18); Z.lor 0x80 (Z.land (Z.shiftr c 12) 0x3F);
   Z.lor 0x80 (Z.land (Z.shiftr c 6) 0x3F); Z.lor 0x80 (Z.land c 0x3F)].

Fixpoint TextEncoder_encode (s : jsstring) : list Z :=
  match s with
  | [] => []
  | c :: r =>
      if c <? 0x80 then c :: TextEncoder_encode r
      else if c <? 0x800 then utf8_2 c ++ TextEncoder_encode r
      else if is_high_surrogate c then
        match r with
        | d :: r' =>
            if is_low_surrogate d
            then utf8_4 (0x10000 + Z.shiftl (c - 0xD800) 10 + (d - 0xDC00))
                   ++ TextEncoder_encode r'
            else utf8_3 0xFFFD ++ TextEncoder_encode r
        | [] => utf8_3 0xFFFD
        end
      else if is_low_surrogate c then utf8_3 0xFFFD ++ TextEncoder_encode r
      else utf8_3 c ++ TextEncoder_encode r
  end.

(** ** SHA-256 (FIPS 180-4) on 32-bit words *)

Module SHA256.

Definition wrap (x : Z) : Z := x mod 2 ^ 32.
Definition add32 (x y : Z) : Z := wrap (x + y).
Definition not32 (x : Z) : Z := Z.lxor x 0xFFFFFFFF.
Definition rotr (n x : Z) : Z :=
  Z.lor (Z.shiftr x n) (wrap (Z.shiftl x (32 - n))).

Definition Ch (x y z : Z) : Z := Z.lxor (Z.land x y) (Z.land (not32 x) z).
Definition Maj (x y z : Z) : Z :=
  Z.lxor (Z.lxor (Z.land x y) (Z.land x z)) (Z.land y z).
Definition bsig0 (x : Z) : Z := Z.lxor (Z.lxor (rotr 2 x) (rotr 13 x)) (rotr 22 x).
Definition bsig1 (x : Z) : Z := Z.lxor (Z.lxor (rotr 6 x) (rotr 11 x)) (rotr 25 x).
Definition ssig0 (x : Z) : Z := Z.lxor (Z.lxor (rotr 7 x) (rotr 18 x)) (Z.shiftr x 3).
Definition ssig1 (x : Z) : Z := Z.lxor (Z.lxor (rotr 17 x) (rotr 19 x)) (Z.shiftr x 10).

(** The round constants are the first 32 bits of the fractional parts of the
    cube roots of the first 64 primes, and the initial chaining value those of
    the square roots of the first 8. *)
Definition primes : list Z :=
  [2; 3; 5; 7; 11; 13; 17; 19; 23; 29; 31; 37; 41; 43; 47; 53; 59; 61; 67; 71;
   73; 79; 83; 89; 97; 101; 103; 107; 109; 113; 127; 131; 137; 139; 149; 151;
   157; 163; 167; 173; 179; 181; 191; 193; 197; 199; 211; 223; 227; 229; 233;
   239; 241; 251; 257; 263; 269; 271; 277; 281; 283; 293; 307; 311].

Definition cube_root (n : Z) : Z :=
  fold_left (λ r bit, let r' := r + 2 ^ bit in if r' ^ 3 <=? n then r' else r)
            (map Z.of_nat (rev (seq 0 36))) 0.

Definition K : list Z :=
  Eval vm_compute in map (λ p, cube_root (p * 2 ^ 96) mod 2 ^ 32) primes.

(** The eight working variables, and the chaining value between blocks. *)
Record regs : Type := Regs {
  ra : Z; rb : Z; rc : Z; rd : Z; re : Z; rf : Z; rg : Z; rh : Z
}.

Definition initial : regs :=
  Eval vm_compute in
  let h := map (λ p, Z.sqrt (p * 2 ^ 64) mod 2 ^ 32) (firstn 8 primes) in
  Regs (nth 0 h 0) (nth 1 h 0) (nth 2 h 0) (nth 3 h 0)
       (nth 4 h 0) (nth 5 h 0) (nth 6 h 0) (nth 7 h 0).

(** Padding: a one bit, zeros up to 56 modulo 64 bytes, then the message
    length in bits as a 64-bit big-endian integer. *)
Definition be_bytes (count : nat) (x : Z) : list Z :=
  map (fun i => Z.land (Z.shiftr x (8 * Z.of_nat i)) 0xFF) (rev (seq 0 count)).

Definition pad (msg : list Z) : list Z :=
  let len := Z.of_nat (length msg) in
  msg ++ [0x80] ++ repeat 0 (Z.to_nat ((55 - len) mod 64)) ++ be_bytes 8 (8 * len).

Fixpoint words_of_bytes (bs : list Z) : list Z :=
  match bs with
  | b3 :: b2 :: b1 :: b0 :: r =>
      (Z.shiftl (Z.land b3 0xFF) 24 + Z.shiftl (Z.land b2 0xFF) 16
       + Z.shiftl (Z.land b1 0xFF) 8 + Z.land b0 0xFF) :: words_of_bytes r
  | _ => []
  end.

Definition round (k w : Z) (s : regs) : regs :=
  let t1 := add32 (add32 (add32 (add32 (rh s) (bsig1 (re s)))
                                (Ch (re s) (rf s) (rg s))) k) w in
  let t2 := add32 (bsig0 (ra s)) (Maj (ra s) (rb s) (rc s)) in
  Regs (add32 t1 t2) (ra s) (rb s) (rc s) (add32 (rd s) t1) (re s) (rf s) (rg s).

(** The message schedule is kept as a window of sixteen words: its head is
    the word of the current round, and the word sixteen rounds ahead is
    appended. *)
Definition next_word (win : list Z) : Z :=
  add32 (add32 (add32 (ssig1 (nth 14 win 0)) (nth 9 win 0))
               (ssig0 (nth 1 win 0))) (nth 0 win 0).

Fixpoint rounds (ks : list Z) (win : list Z) (s : regs) : regs :=
  match ks with
  | [] => s
  | k :: ks' => rounds ks' (tl win ++ [next_word win]) (round k (hd 0 win) s)
  end.

Definition compress (h : regs) (block : list Z) : regs :=
  let s := rounds K block h in
  Regs (add32 (ra h) (ra s)) (add32 (rb h) (rb s)) (add32 (rc h) (rc s))
       (add32 (rd h) (rd s)) (add32 (re h) (re s)) (add32 (rf h) (rf s))
       (add32 (rg h) (rg s)) (add32 (rh h) (rh s)).

Fixpoint blocks (count : nat) (ws : list Z) (h : regs) : regs :=
  match count with
  | O => h
  | S count' => blocks count' (skipn 16 ws) (compress h (firstn 16 ws))
  end.

Definition word_bytes (x : Z) : list Z :=
  [Z.land (Z.shiftr x 24) 0xFF; Z.land (Z.shiftr x 16) 0xFF;
   Z.land (Z.shiftr x 8) 0xFF; Z.land x 0xFF].

Definition regs_bytes (h : regs) : list Z :=
  word_bytes (ra h) ++ word_bytes (rb h) ++ word_bytes (rc h) ++ word_bytes (rd h)
  ++ word_bytes (re h) ++ word_bytes (rf h) ++ word_bytes (rg h) ++ word_bytes (rh h).

(** The 32 bytes of the digest of a byte sequence. *)
Definition digest (msg : list Z) : list Z :=
  let ws := words_of_bytes (pad msg) in
  regs_bytes (blocks (length ws / 16)%nat ws initial).

End SHA256.

(** [crypto.subtle.digest('SHA-256', new TextEncoder().encode(dataString))]
    followed by the hex encoding of the source. *)
Definition sha256_hex (dataString : jsstring) : jsstring :=
  hex_of_bytes (SHA256.digest (TextEncoder_encode dataString)).

(** ** The proof-of-work solver of Register.js *)

(** What an asynchronous function has done when it is observed: it returned,
    it threw, or its loop is still running when the fuel is spent. *)
Inductive outcome (A : Type) : Type :=
  | Returned (a : A)
  | Thrown (e : JsError)
  | OutOfFuel.
Arguments Returned {A} a.
Arguments Thrown {A} e.
Arguments OutOfFuel {A}.

(** The object [{ nonce: nonce.toString(), hash: hash }]. *)
Record Solution : Type := { nonce : jsstring; hash : jsstring }.

(** [`${challenge}${nonce}`] *)
Definition dataString (challenge : jsstring) (nonce : Z) : jsstring :=
  challenge ++ Number_toString nonce.

(** [nonce++] on a Number that counts up from 0: every integer up to 2^53 is
    held exactly, and 2^53 + 1 rounds back to 2^53. *)
Definition increment (nonce : Z) : Z :=
  if nonce <? 2 ^ 53 then nonce + 1 else nonce.

(** The [while (true)] loop, one iteration per unit of fuel.  The objects
    [userData] and [verifyData] of the loop body are written and never read,
    so they do not appear. *)
Fixpoint search (fuel : nat) (challenge target : jsstring) (nonce : Z)
  : option (Z * jsstring) :=
  match fuel with
  | O => None
  | S fuel' =>
      let hash := sha256_hex (dataString challenge nonce) in
      if startsWith hash target then Some (nonce, hash)
      else search fuel' challenge target (increment nonce)
  end.

Definition calculateProofOfWork (fuel : nat) (challenge : jsstring) (difficulty : Z)
  : outcome Solution :=
  match String_repeat 48 difficulty with
  | inl e => Thrown e
  | inr target =>
      match search fuel challenge target 0 with
      | Some (nonce, hash) =>
          Returned {| nonce := Number_toString nonce; hash := hash |}
      | None => OutOfFuel
      end
  end.

(** The difficulty predicate of the specification: the first [difficulty]
    characters of the digest exist and are all ['0']. *)
Definition leading_zeros (difficulty : Z) (h : jsstring) : Prop :=
  ∀ i : nat, Z.of_nat i < difficulty → h !! i = Some 48.

(** The digest the specification assigns to a challenge and a nonce. *)
Definition digest_of (challenge : jsstring) (n : Z) : jsstring :=
  sha256_hex (challenge ++ Number_toString n).

(** Lower-case hex characters and decimal digits. *)
Definition is_lower_hex (c : Z) : Prop := 48 <= c <= 57 ∨ 97 <= c <= 102.
Definition is_decimal_digit (c : Z) : Prop := 48 <= c <= 57.

(** ** Data exchanged with the server *)

(** [challengeResponse.data] of [GET /users/challenge]. *)
Module Challenge.
Record t : Type := { challenge : jsstring; difficulty : Z; token : jsstring }.
End Challenge.

(** The body [userData] of [POST /users/register]. *)
Module Request.
Record t : Type := {
  username : jsstring; password : jsstring;
  nonce : jsstring; hash : jsstring; active : bool
}.
End Request.

(** [response.data] of the current-user call. *)
Record Profile : Type := { profile_username : jsstring; profile_fields : list (jsstring * jsstring) }.

(** The calls of [api]. *)
Inductive Call : Type :=
  | getChallenge
  | registerUser (userData : Request.t) (token : jsstring)
  | loginUser (username password : jsstring)
  | getCurrentUser.

(** A call together with the error it was rejected with, if any. *)
Definition Exchange : Type := (Call * option JsError)%type.

(** ** Component state *)

Module Register.
(** [setResult({ success, message })] *)
Record Result : Type := { success : bool; message : jsstring }.

Record State : Type := {
  username : jsstring; password : jsstring;
  loading : bool; result : option Result
}.

Definition initial : State :=
  {| username := []; password := []; loading := false; result := None |}.

Definition setUsername (v : jsstring) (s : State) : State :=
  {| username := v; password := password s; loading := loading s; result := result s |}.
Definition setPassword (v : jsstring) (s : State) : State :=
  {| username := username s; password := v; loading := loading s; result := result s |}.
Definition setLoading (v : bool) (s : State) : State :=
  {| username := username s; password := password s; loading := v; result := result s |}.
Definition setResult (v : option Result) (s : State) : State :=
  {| username := username s; password := password s; loading := loading s; result := v |}.

(** [<button type="submit" disabled={loading}>] *)
Definition button_disabled (s : State) : bool := loading s.

(** Both inputs are [required]: the browser does not fire [onSubmit] while
    one of them is empty. *)
Definition fields_filled (s : State) : bool :=
  match username s, password s with
  | _ :: _, _ :: _ => true
  | _, _ => false
  end.
End Register.

Module Login.
Record State : Type := { username : jsstring; password : jsstring; error : jsstring }.

Definition initial : State := {| username := []; password := []; error := [] |}.

Definition setError (v : jsstring) (s : State) : State :=
  {| username := username s; password := password s; error := v |}.
End Login.

Module App.
Record State : Type := {
  isLoggedIn : bool; showRegister : bool;
  userData : option Profile; loading : bool
}.

Definition initial : State :=
  {| isLoggedIn := false; showRegister := false; userData := None; loading := true |}.

Definition setIsLoggedIn (v : bool) (s : State) : State :=
  {| isLoggedIn := v; showRegister := showRegister s;
     userData := userData s; loading := loading s |}.
Definition setUserData (v : option Profile) (s : State) : State :=
  {| isLoggedIn := isLoggedIn s; showRegister := showRegister s;
     userData := v; loading := loading s |}.
Definition setLoading (v : bool) (s : State) : State :=
  {| isLoggedIn := isLoggedIn s; showRegister := showRegister s;
     userData := userData s; loading := v |}.
End App.

(** Everything the handlers read and write: [localStorage], the state of the
    three components, and the exchanges with the server so far, oldest
    first. *)
Record World : Type := {
  localStorage : gmap jsstring jsstring;
  exchanges : list Exchange;
  registerState : Register.State;
  loginState : Login.State;
  appState : App.State
}.

(** The server, the network and the browser: the reply to each call, which
    may depend on the exchanges so far and, for the current-user call, on what
    [localStorage] holds; and whether [localStorage], holding what it holds,
    is too full to take a key and a value.  api.js declares [getChallenge] and
    [registerUser]; Login.js and App.js also call [api.loginUser] and
    [api.getCurrentUser], whose replies are taken the same way. *)
Record Api : Type := {
  reply_getChallenge : list Exchange → JsError + Challenge.t;
  reply_registerUser : list Exchange → Request.t → jsstring → JsError + unit;
  reply_loginUser : list Exchange → jsstring → jsstring → JsError + jsstring;
  reply_getCurrentUser : list Exchange → gmap jsstring jsstring → JsError + Profile;
  storage_full : gmap jsstring jsstring → jsstring → jsstring → bool
}.

(** ** Handlers as state transformers that may throw *)

Definition M (A : Type) : Type := World → outcome A * World.

Definition ret {A} (a : A) : M A := λ w, (Returned a, w).

Definition bind {A B} (m : M A) (k : A → M B) : M B :=
  λ w, match m w with
       | (Returned a, w') => k a w'
       | (Thrown e, w') => (Thrown e, w')
       | (OutOfFuel, w') => (OutOfFuel, w')
       end.

Notation "'do' x <- m ; k" := (bind m (λ x, k))
  (at level 10, x name, m at level 100, k at level 200).
Notation "m ;; k" := (bind m (λ _, k))
  (at level 100, k at level 200, right associativity).

(** [try { body } catch (error) { handler }] *)
Definition try_catch {A} (body : M A) (handler : JsError → M A) : M A :=
  λ w, match body w with
       | (Thrown e, w') => handler e w'
       | r => r
       end.

(** [try { body } finally { cleanup }] *)
Definition try_finally {A} (body : M A) (cleanup : M unit) : M A :=
  λ w, match body w with
       | (OutOfFuel, w') => (OutOfFuel, w')
       | (r, w') =>
           match cleanup w' with
           | (Returned _, w'') => (r, w'')
           | (Thrown e, w'') => (Thrown e, w'')
           | (OutOfFuel, w'') => (OutOfFuel, w'')
           end
       end.

(** Calling an asynchronous function without [await]: its rejection is not
    seen by the caller. *)
Definition detached (m : M unit) : M unit :=
  λ w, match m w with
       | (Thrown _, w') => (Returned tt, w')
       | r => r
       end.

(** [await] of a computation that does not touch the world. *)
Definition await {A} (o : outcome A) : M A := λ w, (o, w).

(** [await api.f(...)]: the exchange is recorded and the reply returned or
    thrown. *)
Definition record_exchange (x : Exchange) (w : World) : World :=
  {| localStorage := localStorage w; exchanges := exchanges w ++ [x];
     registerState := registerState w; loginState := loginState w;
     appState := appState w |}.

Definition request {A} (c : Call) (reply : World → JsError + A) : M A :=
  λ w, match reply w with
       | inl e => (Thrown e, record_exchange (c, Some e) w)
       | inr a => (Returned a, record_exchange (c, None) w)
       end.

(** [localStorage] *)
Definition with_localStorage (f : gmap jsstring jsstring → gmap jsstring jsstring)
  : M unit :=
  λ w, (Returned tt,
        {| localStorage := f (localStorage w); exchanges := exchanges w;
           registerState := registerState w; loginState := loginState w;
           appState := appState w |}).

Definition getItem (key : jsstring) : M (option jsstring) :=
  λ w, (Returned (localStorage w !! key), w).
(** [setItem] throws a QuotaExceededError when the value does not fit. *)
Definition setItem (full : gmap jsstring jsstring → jsstring → jsstring → bool)
    (key value : jsstring) : M unit :=
  λ w, if full (localStorage w) key value
       then (Thrown QuotaExceededError, w)
       else with_localStorage (insert key value) w.
Definition removeItem (key : jsstring) : M unit := with_localStorage (delete key).

Definition authToken : jsstring := lit "authToken".

(** Truthiness of a string that may be [null] or [undefined]: the empty
    string is falsy. *)
Definition truthy (v : option jsstring) : bool :=
  match v with
  | Some (_ :: _) => true
  | _ => false
  end.

(** [v || fallback] *)
Definition or_else (v : option jsstring) (fallback : jsstring) : jsstring :=
  match v with
  | Some (c :: s) => c :: s
  | _ => fallback
  end.

(** [error.response?.data?.detail] *)
Definition error_detail (error : JsError) : option jsstring :=
  match error with
  | AxiosError detail => detail
  | _ => None
  end.

(** State setters of the three components, lifted to the world. *)
Definition in_Register (f : Register.State → Register.State) : M unit :=
  λ w, (Returned tt,
        {| localStorage := localStorage w; exchanges := exchanges w;
           registerState := f (registerState w); loginState := loginState w;
           appState := appState w |}).

Definition in_Login (f : Login.State → Login.State) : M unit :=
  λ w, (Returned tt,
        {| localStorage := localStorage w; exchanges := exchanges w;
           registerState := registerState w; loginState := f (loginState w);
           appState := appState w |}).

Definition in_App (f : App.State → App.State) : M unit :=
  λ w, (Returned tt,
        {| localStorage := localStorage w; exchanges := exchanges w;
           registerState := registerState w; loginState := loginState w;
           appState := f (appState w) |}).

(** ** Register.js: [handleSubmit] *)

(** [username] and [password] are the values of the render in which the
    handler was created. *)
Definition Register_handleSubmit (api : Api) (fuel : nat) : M unit :=
  λ w0,
    let username := Register.username (registerState w0) in
    let password := Register.password (registerState w0) in
    (in_Register (Register.setLoading true) ;;
     in_Register (Register.setResult None) ;;
     try_finally
       (try_catch
          (do data <- request getChallenge (λ w, reply_getChallenge api (exchanges w)) ;
           do pow <- await (calculateProofOfWork fuel (Challenge.challenge data)
                                                 (Challenge.difficulty data)) ;
           let userData :=
             {| Request.username := username; Request.password := password;
                Request.nonce := nonce pow; Request.hash := hash pow;
                Request.active := false |} in
           request (registerUser userData (Challenge.token data))
                   (λ w, reply_registerUser api (exchanges w) userData
                                            (Challenge.token data)) ;;
           in_Register (Register.setResult
             (Some {| Register.success := true;
                      Register.message := lit "Registration successful!" |})))
          (λ error,
             in_Register (Register.setResult
               (Some {| Register.success := false;
                        Register.message :=
                          or_else (error_detail error)
                                  (lit "Registration failed. Please try again.") |}))))
       (in_Register (Register.setLoading false))) w0.

(** ** App.js: [checkAuth], [handleLogin], [handleLogout] *)

Definition fetchCurrentUser (api : Api) : M Profile :=
  request getCurrentUser (λ w, reply_getCurrentUser api (exchanges w) (localStorage w)).

Definition App_checkAuth (api : Api) : M unit :=
  do token <- getItem authToken ;
  (if truthy token
   then try_catch
          (do data <- fetchCurrentUser api ;
           in_App (App.setUserData (Some data)) ;;
           in_App (App.setIsLoggedIn true))
          (λ _, removeItem authToken)
   else ret tt) ;;
  in_App (App.setLoading false).

Definition App_handleLogin (api : Api) : M unit :=
  try_catch
    (do data <- fetchCurrentUser api ;
     in_App (App.setUserData (Some data)) ;;
     in_App (App.setIsLoggedIn true))
    (λ _, ret tt).

Definition App_handleLogout : M unit :=
  removeItem authToken ;;
  in_App (App.setIsLoggedIn false) ;;
  in_App (App.setUserData None).

(** ** Login.js: [handleSubmit] *)

(** [onLoginSuccess] is the optional callback of the props; it is called
    without [await]. *)
Definition Login_handleSubmit (api : Api) (onLoginSuccess : option (M unit)) : M unit :=
  λ w0,
    let username := Login.username (loginState w0) in
    let password := Login.password (loginState w0) in
    (in_Login (Login.setError []) ;;
     try_catch
       (do access_token <- request (loginUser username password)
                             (λ w, reply_loginUser api (exchanges w) username password) ;
        setItem (storage_full api) authToken access_token ;;
        match onLoginSuccess with
        | Some callback => detached callback
        | None => ret tt
        end)
       (λ error,
          in_Login (Login.setError
            (lit "Login failed: " ++ or_else (error_detail error) (lit "Unknown error"))))) w0.

(** [<Login onLoginSuccess={handleLogin} />] as App.js mounts it. *)
Definition login (api : Api) : M unit :=
  Login_handleSubmit api (Some (App_handleLogin api)).

(** The session states of the specification, read off the state of App. *)
Definition Anonymous (s : App.State) : Prop :=
  App.isLoggedIn s = false ∧ App.userData s = None.

Definition Authenticated (profile : Profile) (s : App.State) : Prop :=
  App.isLoggedIn s = true ∧ App.userData s = Some profile.

(** ** Register.js as a component reacting to events

    Between two [await]s of [handleSubmit] the user can type and can trigger
    the form again.  Here every invocation of [handleSubmit] that has not
    finished is kept with the point it has reached, and the form, the server
    and the solver loop move one event at a time; the component is rendered
    again between two events. *)

Module Machine.

(** Where an unfinished invocation of [handleSubmit] stands. *)
Inductive Phase : Type :=
  | FetchingChallenge
  | Solving (data : Challenge.t) (target : jsstring) (nonce : Z)
  | Submitting (userData : Request.t) (token : jsstring).

(** An unfinished invocation, with the [username] and [password] of the
    render that created it. *)
Record Attempt : Type := {
  username : jsstring; password : jsstring; phase : Phase
}.

Record Component : Type := {
  form : Register.State;
  inflight : list Attempt
}.

Definition mounted : Component := {| form := Register.initial; inflight := [] |}.

Inductive Event : Type :=
  | Submit                                   (* the form's onSubmit *)
  | TypeUsername (v : jsstring)              (* onChange of the inputs *)
  | TypePassword (v : jsstring)
  | ChallengeResolved (i : nat) (data : Challenge.t)
  | ChallengeRejected (i : nat) (error : JsError)
  | SolverIteration (i : nat)
  | RegisterResolved (i : nat)
  | RegisterRejected (i : nat) (error : JsError).

Definition succeeded : Register.Result :=
  {| Register.success := true; Register.message := lit "Registration successful!" |}.

Definition failed (error : JsError) : Register.Result :=
  {| Register.success := false;
     Register.message :=
       or_else (error_detail error) (lit "Registration failed. Please try again.") |}.

(** The end of invocation [i]: [setResult] in the [try] or the [catch]
    block, then [setLoading(false)] in the [finally] block. *)
Definition settle (i : nat) (r : Register.Result) (c : Component) : Component :=
  {| form := Register.setLoading false (Register.setResult (Some r) (form c));
     inflight := delete i (inflight c) |}.

Definition move (i : nat) (a : Attempt) (p : Phase) (c : Component) : Component :=
  {| form := form c;
     inflight := <[i := {| username := username a; password := password a;
                           phase := p |}]> (inflight c) |}.

(** One event.  [None]: the event cannot happen in this state; for
    [Submit] that is the disabled button, or an empty required input,
    refusing the trigger. *)
Definition step (c : Component) (ev : Event) : option Component :=
  match ev with
  | Submit =>
      if Register.button_disabled (form c) || negb (Register.fields_filled (form c))
      then None
      else Some {| form := Register.setResult None (Register.setLoading true (form c));
                   inflight := inflight c ++
                     [{| username := Register.username (form c);
                         password := Register.password (form c);
                         phase := FetchingChallenge |}] |}
  | TypeUsername v =>
      Some {| form := Register.setUsername v (form c); inflight := inflight c |}
  | TypePassword v =>
      Some {| form := Register.setPassword v (form c); inflight := inflight c |}
  | ChallengeResolved i data =>
      match inflight c !! i with
      | Some a =>
          match phase a with
          | FetchingChallenge =>
              match String_repeat 48 (Challenge.difficulty data) with
              | inl error => Some (settle i (failed error) c)
              | inr target => Some (move i a (Solving data target 0) c)
              end
          | _ => None
          end
      | None => None
      end
  | ChallengeRejected i error =>
      match inflight c !! i with
      | Some a =>
          match phase a with
          | FetchingChallenge => Some (settle i (failed error) c)
          | _ => None
          end
      | None => None
      end
  | SolverIteration i =>
      match inflight c !! i with
      | Some a =>
          match phase a with
          | Solving data target nonce =>
              let hash := sha256_hex (dataString (Challenge.challenge data) nonce) in
              if startsWith hash target
              then Some (move i a
                     (Submitting
                        {| Request.username := username a;
                           Request.password := password a;
                           Request.nonce := Number_toString nonce;
                           Request.hash := hash; Request.active := false |}
                        (Challenge.token data)) c)
              else Some (move i a (Solving data target (increment nonce)) c)
          | _ => None
          end
      | None => None
      end
  | RegisterResolved i =>
      match inflight c !! i with
      | Some a =>
          match phase a with
          | Submitting _ _ => Some (settle i succeeded c)
          | _ => None
          end
      | None => None
      end
  | RegisterRejected i error =>
      match inflight c !! i with
      | Some a =>
          match phase a with
          | Submitting _ _ => Some (settle i (failed error) c)
          | _ => None
          end
      | None => None
      end
  end.

(** The states the component can be in after it is mounted. *)
Inductive reachable : Component → Prop :=
  | reachable_mounted : reachable mounted
  | reachable_step c ev c' : reachable c → step c ev = Some c' → reachable c'.

(** Running a list of events; [None] as soon as one cannot happen. *)
Fixpoint run (c : Component) (evs : list Event) : option Component :=
  match evs with
  | [] => Some c
  | ev :: evs' =>
      match step c ev with
      | Some c' => run c' evs'
      | None => None
      end
  end.

End Machine.

(** The submit guard: either nothing is in flight and the button is enabled,
    or exactly one invocation is in flight and the button is disabled. *)
Definition guarded (c : Machine.Component) : Prop :=
  (Register.loading (Machine.form c) = false ∧ Machine.inflight c = [])
  ∨ (Register.loading (Machine.form c) = true ∧ ∃ a, Machine.inflight c = [a]).

(** The component has settled: [setResult] was called with the success or
    with a failure. *)
Definition settled (c : Machine.Component) : Prop :=
  ∃ r, Register.result (Machine.form c) = Some r
       ∧ (r = Machine.succeeded ∨ ∃ error, r = Machine.failed error).

(** ** Worlds and servers used to run the handlers *)

(** The page just loaded, with [stored] as the content of [localStorage]. *)
Definition loaded (stored : gmap jsstring jsstring) : World :=
  {| localStorage := stored; exchanges := [];
     registerState := Register.initial; loginState := Login.initial;
     appState := App.initial |}.

(** The page with [alice] and [secret] typed into both forms, and [stored] as
    the content of [localStorage]. *)
Definition typed (stored : gmap jsstring jsstring) : World :=
  {| localStorage := stored; exchanges := [];
     registerState :=
       Register.setPassword (lit "secret")
         (Register.setUsername (lit "alice") Register.initial);
     loginState :=
       {| Login.username := lit "alice"; Login.password := lit "secret";
          Login.error := [] |};
     appState := App.setLoading false App.initial |}.

(** No network: every call is rejected without a response. *)
Definition offline : Api :=
  {| reply_getChallenge := λ _, inl (AxiosError None);
     reply_registerUser := λ _ _ _, inl (AxiosError None);
     reply_loginUser := λ _ _ _, inl (AxiosError None);
     reply_getCurrentUser := λ _ _, inl (AxiosError None);
     storage_full := λ _ _ _, false |}.

(** A server that issues the challenge [abc123] at the given difficulty,
    accepts every registration and every login with the token [jwt], and
    knows the profile of that token only. *)
Definition server (difficulty : Z) : Api :=
  {| reply_getChallenge := λ _,
       inr {| Challenge.challenge := lit "abc123";
              Challenge.difficulty := difficulty;
              Challenge.token := lit "tok" |};
     reply_registerUser := λ _ _ _, inr tt;
     reply_loginUser := λ _ _ _, inr (lit "jwt");
     reply_getCurrentUser := λ _ stored,
       match stored !! authToken with
       | Some t =>
           if decide (t = lit "jwt")
           then inr {| profile_username := lit "alice"; profile_fields := [] |}
           else inl (AxiosError (Some (lit "Could not validate credentials")))
       | None => inl (AxiosError (Some (lit "Not authenticated")))
       end;
     storage_full := λ _ _ _, false |}.

(** The same server with the current-user call failing. *)
Definition server_without_profile : Api :=
  {| reply_getChallenge := reply_getChallenge (server 1);
     reply_registerUser := reply_registerUser (server 1);
     reply_loginUser := reply_loginUser (server 1);
     reply_getCurrentUser := λ _ _, inl (AxiosError None);
     storage_full := λ _ _ _, false |}.

(** ** What the components render *)

(** The three screens of App.js: the loading notice, the welcome screen with
    the greeted name and the logout button, and the authentication screen
    showing either Register or Login. *)
Inductive Screen : Type :=
  | LoadingScreen
  | WelcomeScreen (name : jsstring)
  | AuthenticationScreen (showRegister : bool).

(** The [return] statements of App: [loading] is tested first, then
    [isLoggedIn]; the greeting is [userData ? userData.username : 'User']. *)
Definition App_render (s : App.State) : Screen :=
  if App.loading s then LoadingScreen
  else if App.isLoggedIn s then
    WelcomeScreen match App.userData s with
                  | Some profile => profile_username profile
                  | None => lit "User"
                  end
  else AuthenticationScreen (App.showRegister s).

(** [{loading ? 'Processing...' : 'Register'}] *)
Definition Register_button_label (s : Register.State) : jsstring :=
  if Register.loading s then lit "Processing..." else lit "Register".

(** The result box of Register.js: absent while [result] is null, else its
    class [`result ${result.success ? 'success' : 'error'}`] and its text. *)
Definition Register_result_box (s : Register.State) : option (jsstring * jsstring) :=
  match Register.result s with
  | Some r =>
      Some (lit "result " ++ (if Register.success r then lit "success" else lit "error"),
            Register.message r)
  | None => None
  end.

(** The page is loaded again: [localStorage] survives, every component
    starts from its initial state. *)
Definition reload (w : World) : World :=
  {| localStorage := localStorage w; exchanges := exchanges w;
     registerState := Register.initial; loginState := Login.initial;
     appState := App.initial |}.

(** ** api.js *)

Inductive Method : Type := GET | POST.

(** What is handed to [axios.get] and [axios.post]. *)
Record HttpRequest : Type := {
  method : Method; url : jsstring; body : option Request.t
}.

Definition API_URL : jsstring := lit "http://127.0.0.1:8000".

(** [axios.get(`${API_URL}/users/challenge`)] *)
Definition api_getChallenge : HttpRequest :=
  {| method := GET; url := API_URL ++ lit "/users/challenge"; body := None |}.

(** [axios.post(`${API_URL}/users/register?token=${token}`, userData)] *)
Definition api_registerUser (userData : Request.t) (token : jsstring) : HttpRequest :=
  {| method := POST; url := API_URL ++ lit "/users/register?token=" ++ token;
     body := Some userData |}.

(** A server that issues challenges and rejects every registration with a
    detail message. *)
Definition server_rejecting_registration : Api :=
  {| reply_getChallenge := reply_getChallenge (server 0);
     reply_registerUser := λ _ _ _,
       inl (AxiosError (Some (lit "Username already registered")));
     reply_loginUser := reply_loginUser (server 0);
     reply_getCurrentUser := reply_getCurrentUser (server 0);
     storage_full := λ _ _ _, false |}.

(** The same server as [server 1] for a browser whose storage is full. *)
Definition server_storage_full : Api :=
  {| reply_getChallenge := reply_getChallenge (server 1);
     reply_registerUser := reply_registerUser (server 1);
     reply_loginUser := reply_loginUser (server 1);
     reply_getCurrentUser := reply_getCurrentUser (server 1);
     storage_full := λ _ _ _, true |}.


(** The world in which [handleSubmit] has set [loading] and [result] and made
    the exchanges [new], everything else being as in [w]. *)
Definition submitted (w : World) (loading : bool) (result : option Register.Result)
    (new : list Exchange) : World :=
  {| localStorage := localStorage w; exchanges := exchanges w ++ new;
     registerState :=
       {| Register.username := Register.username (registerState w);
          Register.password := Register.password (registerState w);
          Register.loading := loading; Register.result := result |};
     loginState := loginState w; appState := appState w |}.

(** * Properties *)

(** ** Known answers of the digest *)

Example sha256_hex_empty :
  sha256_hex (lit "") =
  lit "e3b0c44298fc1c149afbf4c8996fb92427ae41e4649b934ca495991b7852b855".
Proof. vm_compute. reflexivity. Qed.

Example sha256_hex_abc :
  sha256_hex (lit "abc") =
  lit "ba7816bf8f01cfea414140de5dae2223b00361a396177a9cb410ff61f20015ad".
Proof. vm_compute. reflexivity. Qed.

Example sha256_hex_two_blocks :
  sha256_hex (lit "abcdbcdecdefdefgefghfghighijhijkijkljklmklmnlmnomnopnopq") =
  lit "248d6a61d20638b8e5c026930c3e6039a33ce45964ff2167f6ecedd419db06c1".
Proof. vm_compute. reflexivity. Qed.

Example Number_toString_examples :
  map Number_toString [0; 7; 10; 1000; 9007199254740992] =
  map lit ["0"; "7"; "10"; "1000"; "9007199254740992"]%string.
Proof. vm_compute. reflexivity. Qed.

(** ** Strings *)

Lemma startsWith_length s prefix :
  startsWith s prefix = true → (length prefix ≤ length s)%nat.
Proof.
  revert s. induction prefix as [|p prefix IH]; intros [|c s] H; simpl in *;
    try lia; try discriminate.
  apply andb_true_iff in H as [_ H]. apply IH in H. lia.
Qed.

Lemma startsWith_zeros d h :
  startsWith h (repeat 48 d) = true ↔ ∀ i : nat, (i < d)%nat → h !! i = Some 48.
Proof.
  revert h. induction d as [|d IH]; intros h; simpl.
  - split; [intros _ i Hi; lia | done].
  - destruct h as [|c h].
    + split; [done|]. intros H. specialize (H 0%nat ltac:(lia)). done.
    + rewrite andb_true_iff, Z.eqb_eq, IH. split.
      * intros [-> H] [|i] Hi; simpl; [done|]. apply H. lia.
      * intros H. split.
        -- specialize (H 0%nat ltac:(lia)). simpl in H. congruence.
        -- intros i Hi. apply (H (S i)). lia.
Qed.

Lemma startsWith_leading_zeros difficulty h :
  0 <= difficulty →
  startsWith h (repeat 48 (Z.to_nat difficulty)) = true ↔ leading_zeros difficulty h.
Proof.
  intros Hd. rewrite startsWith_zeros. unfold leading_zeros.
  split; intros H i Hi; apply H; lia.
Qed.

Lemma length_padStart_byte b : length (padStart (byte_toString16 b) 2 48) = 2%nat.
Proof. unfold padStart, byte_toString16. destruct (b <? 16); reflexivity. Qed.

Lemma length_hex_of_bytes bs : length (hex_of_bytes bs) = (2 * length bs)%nat.
Proof.
  unfold hex_of_bytes. induction bs as [|b bs IH]; [done|].
  cbn [map concat]. rewrite length_app, length_padStart_byte, IH. simpl. lia.
Qed.

Lemma length_digest msg : length (SHA256.digest msg) = 32%nat.
Proof. reflexivity. Qed.

Lemma length_sha256_hex s : length (sha256_hex s) = 64%nat.
Proof. unfold sha256_hex. rewrite length_hex_of_bytes, length_digest. reflexivity. Qed.

(** Every byte is written as its two hex digits, high nibble first. *)
Lemma padStart_byte b :
  0 <= b < 256 →
  padStart (byte_toString16 b) 2 48 = [hex_digit (b / 16); hex_digit (b mod 16)].
Proof.
  intros Hb. unfold padStart, byte_toString16.
  destruct (b <? 16) eqn:E; [|reflexivity].
  apply Z.ltb_lt in E. rewrite Z.div_small, Z.mod_small by lia. reflexivity.
Qed.

Lemma hex_digit_lower d : 0 <= d < 16 → is_lower_hex (hex_digit d).
Proof. unfold hex_digit, is_lower_hex. intros Hd. destruct (d <? 10) eqn:E; lia. Qed.

Lemma land_255_range x : 0 <= Z.land x 0xFF < 256.
Proof.
  change 0xFF with (Z.ones 8). rewrite Z.land_ones by lia.
  apply Z.mod_pos_bound. lia.
Qed.

Lemma digest_bytes msg : Forall (λ b, 0 <= b < 256) (SHA256.digest msg).
Proof.
  unfold SHA256.digest, SHA256.regs_bytes, SHA256.word_bytes.
  repeat (apply Forall_app; split); repeat constructor; apply land_255_range.
Qed.

Lemma hex_of_bytes_nibbles bs :
  Forall (λ b, 0 <= b < 256) bs →
  hex_of_bytes bs = flat_map (λ b, [hex_digit (b / 16); hex_digit (b mod 16)]) bs.
Proof.
  unfold hex_of_bytes. induction 1 as [|b bs Hb _ IH]; [done|].
  cbn [map concat flat_map]. rewrite padStart_byte, IH by done. reflexivity.
Qed.

Lemma hex_of_bytes_lower bs :
  Forall (λ b, 0 <= b < 256) bs → Forall is_lower_hex (hex_of_bytes bs).
Proof.
  intros H. rewrite hex_of_bytes_nibbles by done.
  induction H as [|b bs Hb _ IH]; [constructor|].
  cbn [flat_map]. apply Forall_app. split; [|done].
  apply Forall_cons; split; [|apply Forall_cons; split; [|constructor]];
    apply hex_digit_lower.
  - split; [apply Z.div_pos; lia | apply Z.div_lt_upper_bound; lia].
  - apply Z.mod_pos_bound. lia.
Qed.

(** ** Decimal form of the nonce *)

Lemma digits_aux_app fuel n acc : digits_aux fuel n acc = digits_aux fuel n [] ++ acc.
Proof.
  revert n acc. induction fuel as [|fuel IH]; intros n acc; simpl; [done|].
  destruct (n <? 10); [done|].
  rewrite (IH _ (_ :: acc)), (IH _ [_]), <- app_assoc. reflexivity.
Qed.

Lemma decimal_value_snoc s c : decimal_value (s ++ [c]) = 10 * decimal_value s + (c - 48).
Proof. unfold decimal_value. rewrite fold_left_app. reflexivity. Qed.

Lemma digits_aux_value fuel n :
  0 <= n < 2 ^ Z.of_nat fuel →
  decimal_value (digits_aux fuel n []) = n
  ∧ Forall is_decimal_digit (digits_aux fuel n []).
Proof.
  revert n. induction fuel as [|fuel IH]; intros n Hn.
  - simpl in Hn. assert (n = 0) as -> by lia. split; [done | constructor].
  - cbn [digits_aux]. pose proof (Z.mod_pos_bound n 10 ltac:(lia)) as Hm.
    destruct (n <? 10) eqn:E.
    + apply Z.ltb_lt in E. rewrite Z.mod_small by lia. split.
      * unfold decimal_value. simpl. lia.
      * repeat constructor; unfold is_decimal_digit; lia.
    + apply Z.ltb_ge in E. rewrite digits_aux_app.
      assert (0 <= n / 10 < 2 ^ Z.of_nat fuel) as Hq.
      { split; [apply Z.div_pos; lia|]. apply Z.div_lt_upper_bound; [lia|].
        rewrite Nat2Z.inj_succ, Z.pow_succ_r in Hn by lia. lia. }
      destruct (IH _ Hq) as [Hv Hd]. split.
      * rewrite decimal_value_snoc, Hv. pose proof (Z.div_mod n 10 ltac:(lia)). lia.
      * apply Forall_app. split; [done|].
        repeat constructor; unfold is_decimal_digit; lia.
Qed.

Lemma digits_fuel n : 0 <= n → n < 2 ^ Z.of_nat (S (Z.to_nat (Z.log2 n))).
Proof.
  intros Hn. rewrite Nat2Z.inj_succ, Z2Nat.id by apply Z.log2_nonneg.
  destruct (Z.eq_dec n 0) as [->|Hz]; [done|].
  apply Z.log2_spec. lia.
Qed.

Lemma Number_toString_decimal n :
  0 <= n →
  decimal_value (Number_toString n) = n ∧ Forall is_decimal_digit (Number_toString n).
Proof.
  intros Hn. unfold Number_toString.
  destruct (n <? 0) eqn:E; [apply Z.ltb_lt in E; lia|].
  apply digits_aux_value. split; [done | by apply digits_fuel].
Qed.

(** ** The search loop *)

Lemma increment_cases n :
  (n < 2 ^ 53 ∧ increment n = n + 1) ∨ (2 ^ 53 <= n ∧ increment n = n).
Proof. unfold increment. destruct (n <? 2 ^ 53) eqn:E; lia. Qed.

(** What the loop returns is the first accepted nonce from its start. *)
Lemma search_sound fuel challenge target n0 n h :
  search fuel challenge target n0 = Some (n, h) →
  n0 <= n
  ∧ h = sha256_hex (dataString challenge n)
  ∧ startsWith h target = true
  ∧ ∀ i, n0 <= i < n → startsWith (sha256_hex (dataString challenge i)) target = false.
Proof.
  revert n0. induction fuel as [|fuel IH]; intros n0 H; [discriminate|].
  cbn [search] in H.
  destruct (startsWith (sha256_hex (dataString challenge n0)) target) eqn:E.
  - inversion H; subst. repeat split; [lia | done | intros i Hi; lia].
  - apply IH in H as (Hle & Hh & Hacc & Hmin).
    destruct (increment_cases n0) as [[Hlt Hinc]|[Hge Hinc]]; rewrite Hinc in *.
    + repeat split; [lia | done | done |].
      intros i Hi. destruct (Z.eq_dec i n0) as [->|Hne]; [done|]. apply Hmin. lia.
    + done.
Qed.

(** An accepted nonce within the exact range is reached with enough fuel. *)
Lemma search_complete challenge target m k n0 :
  Z.of_nat k = m - n0 → m <= 2 ^ 53 →
  startsWith (sha256_hex (dataString challenge m)) target = true →
  ∃ n h, search (S k) challenge target n0 = Some (n, h).
Proof.
  revert n0. induction k as [|k IH]; intros n0 Hk Hm Hacc.
  - assert (n0 = m) as -> by lia. cbn [search]. rewrite Hacc. eauto.
  - cbn [search].
    destruct (startsWith (sha256_hex (dataString challenge n0)) target); [eauto|].
    destruct (increment_cases n0) as [[Hlt Hinc]|[Hge Hinc]]; [|lia].
    rewrite Hinc. apply IH; [lia | done | done].
Qed.

(** The result does not depend on the fuel. *)
Lemma search_deterministic fuel fuel' challenge target n0 r r' :
  search fuel challenge target n0 = Some r →
  search fuel' challenge target n0 = Some r' → r = r'.
Proof.
  revert fuel' n0. induction fuel as [|fuel IH]; intros [|fuel'] n0 H H';
    try discriminate.
  cbn [search] in H, H'.
  destruct (startsWith (sha256_hex (dataString challenge n0)) target).
  - congruence.
  - eapply IH; eassumption.
Qed.

(** Solving the same challenge again gives the same solution. *)
Lemma calculateProofOfWork_deterministic fuel fuel' challenge difficulty s s' :
  calculateProofOfWork fuel challenge difficulty = Returned s →
  calculateProofOfWork fuel' challenge difficulty = Returned s' → s = s'.
Proof.
  unfold calculateProofOfWork. destruct (String_repeat 48 difficulty); [discriminate|].
  destruct (search fuel _ _ _) as [[n h]|] eqn:E; [|discriminate].
  destruct (search fuel' _ _ _) as [[n' h']|] eqn:E'; [|discriminate].
  intros [= <-] [= <-].
  pose proof (search_deterministic _ _ _ _ _ _ _ E E') as [= <- <-]. reflexivity.
Qed.

Lemma search_too_long fuel challenge target n0 :
  (64 < length target)%nat → search fuel challenge target n0 = None.
Proof.
  intros Hlen. revert n0. induction fuel as [|fuel IH]; intros n0; [done|].
  cbn [search].
  destruct (startsWith (sha256_hex (dataString challenge n0)) target) eqn:E; [|done].
  apply startsWith_length in E. rewrite length_sha256_hex in E. lia.
Qed.

Lemma String_maxLength_above_64 : 64 < String_maxLength.
Proof. reflexivity. Qed.

Lemma String_repeat_nonneg c count :
  0 <= count <= String_maxLength →
  String_repeat c count = inr (repeat c (Z.to_nat count)).
Proof.
  intros H. unfold String_repeat. destruct (count <? 0) eqn:E; [lia|].
  destruct (String_maxLength <? count) eqn:E'; [lia | done].
Qed.

Lemma String_repeat_past_limit c count :
  String_maxLength < count → String_repeat c count = inl RangeError.
Proof.
  intros H. unfold String_repeat. destruct (count <? 0); [done|].
  destruct (String_maxLength <? count) eqn:E'; [done | lia].
Qed.

(** The difficulty predicate is met by no string shorter than the
    difficulty. *)
Lemma leading_zeros_length difficulty h :
  leading_zeros difficulty h → difficulty <= Z.of_nat (length h).
Proof.
  intros H. destruct (Z.le_gt_cases difficulty (Z.of_nat (length h))) as [|Hgt]; [done|].
  specialize (H (length h) Hgt). apply lookup_lt_Some in H. lia.
Qed.

Lemma calculateProofOfWork_returned fuel challenge difficulty s :
  calculateProofOfWork fuel challenge difficulty = Returned s →
  0 <= difficulty
  ∧ ∃ n, search fuel challenge (repeat 48 (Z.to_nat difficulty)) 0
         = Some (n, digest_of challenge n)
         ∧ s = {| nonce := Number_toString n; hash := digest_of challenge n |}.
Proof.
  unfold calculateProofOfWork, String_repeat.
  destruct (difficulty <? 0) eqn:E; [discriminate|]. apply Z.ltb_ge in E.
  destruct (String_maxLength <? difficulty); [discriminate|].
  destruct (search _ _ _ _) as [[n h]|] eqn:Hs; [|discriminate].
  intros [= <-]. split; [done|]. exists n.
  apply search_sound in Hs as Hs'. destruct Hs' as (_ & -> & _). done.
Qed.

(** A target of more than 64 zeros is never a prefix of a digest. *)
Lemma calculateProofOfWork_above_64 fuel challenge difficulty :
  64 < difficulty <= String_maxLength →
  calculateProofOfWork fuel challenge difficulty = OutOfFuel.
Proof.
  intros Hd. unfold calculateProofOfWork. rewrite String_repeat_nonneg by lia.
  rewrite search_too_long; [done|]. rewrite repeat_length. lia.
Qed.

(** A target the engine does not build is a RangeError. *)
Lemma calculateProofOfWork_past_limit fuel challenge difficulty :
  String_maxLength < difficulty →
  calculateProofOfWork fuel challenge difficulty = Thrown RangeError.
Proof.
  intros Hd. unfold calculateProofOfWork. by rewrite String_repeat_past_limit.
Qed.

(** With difficulty 0 the empty target matches and nonce 0 is returned. *)
Lemma calculateProofOfWork_zero challenge :
  calculateProofOfWork 1 challenge 0
  = Returned {| nonce := lit "0"; hash := digest_of challenge 0 |}.
Proof. reflexivity. Qed.

(** C1, as stated, fails: with difficulty 65 the solver returns nothing,
    whatever the number of iterations it is given. *)
Lemma calculateProofOfWork_65_never_returns :
  0 <= 65 ∧ ¬ ∃ fuel s, calculateProofOfWork fuel (lit "abc123") 65 = Returned s.
Proof.
  split; [lia|]. intros (fuel & s & H).
  rewrite calculateProofOfWork_above_64 in H; [discriminate|]. by vm_compute.
Qed.

(** C1, amended: for every challenge and every difficulty [D >= 0],
    whatever the solver returns is the smallest nonce [n >= 0] whose digest
    has [D] leading ['0'] characters, with that digest, so that no nonce below
    [n] meets the difficulty; and the solver does return, given enough
    iterations, as soon as some nonce up to 2^53 meets it. *)
Theorem calculateProofOfWork_least challenge difficulty :
  0 <= difficulty →
  (∀ fuel s,
     calculateProofOfWork fuel challenge difficulty = Returned s →
     ∃ n, 0 <= n
          ∧ s = {| nonce := Number_toString n; hash := digest_of challenge n |}
          ∧ leading_zeros difficulty (digest_of challenge n)
          ∧ ∀ i, 0 <= i < n → ¬ leading_zeros difficulty (digest_of challenge i))
  ∧ (∀ m, 0 <= m <= 2 ^ 53 →
          leading_zeros difficulty (digest_of challenge m) →
          ∃ fuel s, calculateProofOfWork fuel challenge difficulty = Returned s).
Proof.
  intros Hd. split.
  - intros fuel s Hr.
    apply calculateProofOfWork_returned in Hr as (_ & n & Hs & ->).
    apply search_sound in Hs as (Hn & _ & Hok & Hmin).
    exists n. repeat split; [lia | by apply startsWith_leading_zeros |].
    intros i Hi Hz. apply startsWith_leading_zeros in Hz; [|done].
    change (digest_of challenge i) with (sha256_hex (dataString challenge i)) in Hz.
    rewrite Hmin in Hz by lia. discriminate.
  - intros m Hm Hacc.
    assert (difficulty <= String_maxLength) as Hmax.
    { apply leading_zeros_length in Hacc. unfold digest_of in Hacc.
      rewrite length_sha256_hex in Hacc. pose proof String_maxLength_above_64. lia. }
    apply startsWith_leading_zeros in Hacc; [|done].
    change (digest_of challenge m) with (sha256_hex (dataString challenge m)) in Hacc.
    destruct (search_complete challenge (repeat 48 (Z.to_nat difficulty)) m
                (Z.to_nat m) 0 ltac:(lia) ltac:(lia) Hacc) as (n & h & Hs).
    exists (S (Z.to_nat m)). eexists.
    unfold calculateProofOfWork. rewrite String_repeat_nonneg, Hs by done. done.
Qed.

Lemma calculateProofOfWork_least_witness :
  0 <= 1
  ∧ ∃ fuel n,
      calculateProofOfWork fuel (lit "abc123") 1
      = Returned {| nonce := Number_toString n; hash := digest_of (lit "abc123") n |}
      ∧ 0 <= n <= 17
      ∧ leading_zeros 1 (digest_of (lit "abc123") n)
      ∧ ∀ i, 0 <= i < n → ¬ leading_zeros 1 (digest_of (lit "abc123") i).
Proof.
  split; [lia|].
  destruct (calculateProofOfWork_least (lit "abc123") 1 ltac:(lia)) as [Hleast Hreturns].
  assert (leading_zeros 1 (digest_of (lit "abc123") 17)) as H17.
  { apply startsWith_leading_zeros; [lia | vm_compute; reflexivity]. }
  destruct (Hreturns 17 ltac:(lia) H17) as (fuel & s & Hr).
  destruct (Hleast fuel s Hr) as (n & Hn & -> & Hz & Hmin).
  exists fuel, n. repeat split; try done.
  destruct (Z.le_gt_cases n 17) as [|Hgt]; [done|].
  destruct (Hmin 17 ltac:(lia) H17).
Defined.

(** C10: for a difficulty below 0 the solver does not return a solution:
    building the target with [repeat] throws a RangeError before any nonce is
    tried, whatever the challenge and the number of iterations allowed. *)
Theorem calculateProofOfWork_negative fuel challenge difficulty :
  difficulty < 0 →
  calculateProofOfWork fuel challenge difficulty = Thrown RangeError
  ∧ String_repeat 48 difficulty = inl RangeError.
Proof.
  intros Hd. unfold calculateProofOfWork, String_repeat.
  destruct (difficulty <? 0) eqn:E; [done|]. apply Z.ltb_ge in E. lia.
Qed.

Lemma calculateProofOfWork_negative_witness :
  -1 < 0
  ∧ calculateProofOfWork 5 (lit "abc123") (-1) = Thrown RangeError
  ∧ String_repeat 48 (-1) = inl RangeError.
Proof.
  split; [lia|]. apply (calculateProofOfWork_negative 5 (lit "abc123") (-1)). lia.
Defined.

(** *** The encoder is UTF-8, the nonce is in canonical decimal *)

Ltac by_cases_below bound :=
  let n := fresh "n" in
  let Hn := fresh "Hn" in
  match goal with
  | H : 0 <= ?x < _ |- _ =>
      replace x with (Z.of_nat (Z.to_nat x)) by lia;
      assert (Hn : (Z.to_nat x < bound)%nat) by lia;
      revert Hn; generalize (Z.to_nat x); clear; intros n Hn;
      repeat (destruct n as [|n]; [reflexivity|]); lia
  end.

Lemma lor_0x80 x : 0 <= x < 64 → Z.lor 0x80 x = 0x80 + x.
Proof. intros H. by_cases_below 64%nat. Qed.

Lemma lor_0xC0 x : 0 <= x < 32 → Z.lor 0xC0 x = 0xC0 + x.
Proof. intros H. by_cases_below 32%nat. Qed.

Lemma lor_0xE0 x : 0 <= x < 16 → Z.lor 0xE0 x = 0xE0 + x.
Proof. intros H. by_cases_below 16%nat. Qed.

Lemma lor_0xF0 x : 0 <= x < 8 → Z.lor 0xF0 x = 0xF0 + x.
Proof. intros H. by_cases_below 8%nat. Qed.

Lemma land_0x3F x : Z.land x 0x3F = x mod 64.
Proof. change 0x3F with (Z.ones 6). by rewrite Z.land_ones by lia. Qed.

Lemma utf8_2_spec c :
  0x80 <= c < 0x800 → utf8_2 c = [0xC0 + c / 64; 0x80 + c mod 64].
Proof.
  intros H. unfold utf8_2. rewrite Z.shiftr_div_pow2, land_0x3F by lia.
  change (2 ^ 6) with 64. pose proof (Z.mod_pos_bound c 64 ltac:(lia)).
  rewrite lor_0xC0, lor_0x80; [done | lia |].
  split; [apply Z.div_pos; lia | apply Z.div_lt_upper_bound; lia].
Qed.

Lemma utf8_3_spec c :
  0x800 <= c < 0x10000 →
  utf8_3 c = [0xE0 + c / 4096; 0x80 + c / 64 mod 64; 0x80 + c mod 64].
Proof.
  intros H. unfold utf8_3. rewrite !Z.shiftr_div_pow2, !land_0x3F by lia.
  change (2 ^ 12) with 4096. change (2 ^ 6) with 64.
  pose proof (Z.mod_pos_bound c 64 ltac:(lia)).
  pose proof (Z.mod_pos_bound (c / 64) 64 ltac:(lia)).
  rewrite lor_0xE0, !lor_0x80; [done | lia | lia |].
  split; [apply Z.div_pos; lia | apply Z.div_lt_upper_bound; lia].
Qed.

Lemma utf8_4_spec cp :
  0x10000 <= cp < 0x110000 →
  utf8_4 cp = [0xF0 + cp / 262144; 0x80 + cp / 4096 mod 64; 0x80 + cp / 64 mod 64;
               0x80 + cp mod 64].
Proof.
  intros H. unfold utf8_4. rewrite !Z.shiftr_div_pow2, !land_0x3F by lia.
  change (2 ^ 18) with 262144. change (2 ^ 12) with 4096. change (2 ^ 6) with 64.
  pose proof (Z.mod_pos_bound cp 64 ltac:(lia)).
  pose proof (Z.mod_pos_bound (cp / 64) 64 ltac:(lia)).
  pose proof (Z.mod_pos_bound (cp / 4096) 64 ltac:(lia)).
  rewrite lor_0xF0, !lor_0x80; [done | lia | lia | lia |].
  split; [apply Z.div_pos; lia | apply Z.div_lt_upper_bound; lia].
Qed.

Lemma is_high_surrogate_spec c : is_high_surrogate c = true ↔ 0xD800 <= c <= 0xDBFF.
Proof. unfold is_high_surrogate. rewrite andb_true_iff, !Z.leb_le. tauto. Qed.

Lemma is_low_surrogate_spec c : is_low_surrogate c = true ↔ 0xDC00 <= c <= 0xDFFF.
Proof. unfold is_low_surrogate. rewrite andb_true_iff, !Z.leb_le. tauto. Qed.

(** On a well-formed string [TextEncoder_encode] is the UTF-8 of the Encoding
    Standard. *)
Lemma TextEncoder_encode_utf8 s : code_units s → TextEncoder_encode s = utf8_of_string s.
Proof.
  unfold utf8_of_string.
  assert (∀ k s, (length s ≤ k)%nat → code_units s →
            TextEncoder_encode s = flat_map utf8_of_scalar (scalar_values s)) as H;
    [|by apply (H (length s))].
  clear s. induction k as [|k IH]; intros [|c r] Hlen Hs; try reflexivity;
    [simpl in Hlen; lia|].
  apply Forall_cons in Hs as [Hc Hr]. simpl in Hlen.
  cbn [TextEncoder_encode scalar_values].
  change ((0xD800 <=? c) && (c <=? 0xDBFF)) with (is_high_surrogate c).
  change ((0xDC00 <=? c) && (c <=? 0xDFFF)) with (is_low_surrogate c).
  pose proof (is_high_surrogate_spec c) as Hhigh.
  pose proof (is_low_surrogate_spec c) as Hlow.
  destruct (Z.ltb_spec c 0x80) as [H1|H1].
  { destruct (is_high_surrogate c); [lia|]. destruct (is_low_surrogate c); [lia|].
    cbn [flat_map]. unfold utf8_of_scalar at 1.
    destruct (Z.ltb_spec c 0x80); [|lia]. cbn [app]. f_equal. apply IH; [lia | done]. }
  destruct (Z.ltb_spec c 0x800) as [H2|H2].
  { destruct (is_high_surrogate c); [lia|]. destruct (is_low_surrogate c); [lia|].
    cbn [flat_map]. unfold utf8_of_scalar at 1.
    destruct (Z.ltb_spec c 0x80); [lia|]. destruct (Z.ltb_spec c 0x800); [|lia].
    rewrite utf8_2_spec by lia. f_equal. apply IH; [lia | done]. }
  destruct (is_high_surrogate c) eqn:Eh.
  { destruct Hhigh as [Hhigh _]. specialize (Hhigh eq_refl).
    destruct r as [|d r']; [reflexivity|].
    apply Forall_cons in Hr as Hr'. destruct Hr' as [Hd Hr'].
    change ((0xDC00 <=? d) && (d <=? 0xDFFF)) with (is_low_surrogate d).
    pose proof (is_low_surrogate_spec d) as Hlowd.
    destruct (is_low_surrogate d) eqn:El.
    - destruct Hlowd as [Hlowd _]. specialize (Hlowd eq_refl).
      rewrite Z.shiftl_mul_pow2 by lia. change (2 ^ 10) with 0x400.
      cbn [flat_map]. unfold utf8_of_scalar at 1.
      set (cp := 0x10000 + (c - 0xD800) * 0x400 + (d - 0xDC00)).
      assert (0x10000 <= cp < 0x110000) as Hcp by (unfold cp; lia).
      destruct (Z.ltb_spec cp 0x80); [lia|]. destruct (Z.ltb_spec cp 0x800); [lia|].
      destruct (Z.ltb_spec cp 0x10000); [lia|].
      rewrite utf8_4_spec by done. f_equal. apply IH; [simpl in Hlen; lia | done].
    - cbn [flat_map]. f_equal. apply IH; [lia | done]. }
  destruct (is_low_surrogate c) eqn:El.
  { cbn [flat_map]. f_equal. apply IH; [lia | done]. }
  cbn [flat_map]. unfold utf8_of_scalar at 1.
  destruct (Z.ltb_spec c 0x80); [lia|]. destruct (Z.ltb_spec c 0x800); [lia|].
  destruct (Z.ltb_spec c 0x10000); [|lia].
  rewrite utf8_3_spec by lia. f_equal. apply IH; [lia | done].
Qed.

Lemma digits_aux_leading fuel n acc :
  0 < n < 2 ^ Z.of_nat fuel →
  ∃ c r, digits_aux fuel n acc = c :: r ∧ 49 <= c <= 57.
Proof.
  revert n acc. induction fuel as [|fuel IH]; intros n acc Hn; [simpl in Hn; lia|].
  cbn [digits_aux]. destruct (n <? 10) eqn:E.
  - apply Z.ltb_lt in E. rewrite Z.mod_small by lia. eexists _, _. split; [done | lia].
  - apply Z.ltb_ge in E. apply IH. split.
    + apply Z.div_str_pos. lia.
    + apply Z.div_lt_upper_bound; [lia|].
      rewrite Nat2Z.inj_succ, Z.pow_succ_r in Hn by lia. lia.
Qed.

(** The decimal string has no leading zero: it is ["0"] for 0 and starts
    with a digit from 1 to 9 otherwise. *)
Lemma Number_toString_canonical n :
  0 <= n →
  (n = 0 → Number_toString n = [48])
  ∧ (0 < n → ∃ c r, Number_toString n = c :: r ∧ 49 <= c <= 57).
Proof.
  intros Hn. split; [by intros -> |]. intros Hpos. unfold Number_toString.
  destruct (n <? 0) eqn:E; [apply Z.ltb_lt in E; lia|].
  apply digits_aux_leading. split; [done | by apply digits_fuel].
Qed.

(** C2: in every iteration the solver hashes the challenge immediately
    followed by the nonce in canonical decimal (digits only, no leading zero,
    denoting the nonce); the digest is the SHA-256 of the UTF-8 bytes of that
    message, written as 64 lower-case hex characters, two per byte; and the
    iteration accepts exactly when the first [difficulty] characters of the
    digest are all ['0']. *)
Theorem solver_iteration fuel challenge difficulty n :
  code_units challenge → 0 <= difficulty <= String_maxLength → 0 <= n →
  take (length challenge) (dataString challenge n) = challenge
  ∧ drop (length challenge) (dataString challenge n) = Number_toString n
  ∧ Forall is_decimal_digit (Number_toString n)
  ∧ decimal_value (Number_toString n) = n
  ∧ (n = 0 → Number_toString n = [48])
  ∧ (0 < n → ∃ c r, Number_toString n = c :: r ∧ 49 <= c <= 57)
  ∧ TextEncoder_encode (dataString challenge n) = utf8_of_string (dataString challenge n)
  ∧ sha256_hex (dataString challenge n)
    = flat_map (λ b, [hex_digit (b / 16); hex_digit (b mod 16)])
               (SHA256.digest (utf8_of_string (dataString challenge n)))
  ∧ length (sha256_hex (dataString challenge n)) = 64%nat
  ∧ Forall is_lower_hex (sha256_hex (dataString challenge n))
  ∧ ∃ target,
      String_repeat 48 difficulty = inr target
      ∧ target = repeat 48 (Z.to_nat difficulty)
      ∧ (leading_zeros difficulty (sha256_hex (dataString challenge n)) →
         search (S fuel) challenge target n
         = Some (n, sha256_hex (dataString challenge n)))
      ∧ (¬ leading_zeros difficulty (sha256_hex (dataString challenge n)) →
         search (S fuel) challenge target n
         = search fuel challenge target (increment n)).
Proof.
  intros Hc Hd Hn. destruct (Number_toString_decimal n Hn) as [Hv Hdig].
  destruct (Number_toString_canonical n Hn) as [Hzero Hlead].
  assert (TextEncoder_encode (dataString challenge n)
          = utf8_of_string (dataString challenge n)) as Hutf8.
  { apply TextEncoder_encode_utf8. unfold dataString. apply Forall_app. split; [done|].
    eapply Forall_impl; [exact Hdig|]. unfold is_decimal_digit.
    intros c Hcd. cbn beta. lia. }
  unfold dataString at 1 2.
  rewrite take_app_length, drop_app_length.
  split; [done|]. split; [done|]. split; [done|]. split; [done|].
  split; [done|]. split; [done|]. split; [done|].
  split.
  { rewrite <- Hutf8. apply hex_of_bytes_nibbles, digest_bytes. }
  split; [apply length_sha256_hex|].
  split; [apply hex_of_bytes_lower, digest_bytes|].
  exists (repeat 48 (Z.to_nat difficulty)).
  split; [by apply String_repeat_nonneg|]. split; [done|].
  cbn [search]. split; intros H.
  - apply startsWith_leading_zeros in H; [|lia]. by rewrite H.
  - destruct (startsWith _ _) eqn:E; [|done].
    apply startsWith_leading_zeros in E; [done | lia].
Qed.

Lemma solver_iteration_witness :
  search 1 [233; 8364; 55357; 56832; 120] [] 0
  = Some (0, lit "41c3ee24258105741be1ef19d64b83a404e4c7f69e2fd6a62c4de89a2387cdf5")
  ∧ search 1 (lit "abc123") [48] 17
    = Some (17, lit "0419759720a926ce720b064c835fcdbccae38d6405d760983ca943e773b73567")
  ∧ search 1 (lit "abc123") [48] 16 = None.
Proof.
  assert (0 <= 1 <= String_maxLength) as H1 by (by vm_compute).
  assert (0 <= 0 <= String_maxLength) as H0 by (by vm_compute).
  assert (code_units (lit "abc123")) as Habc by (repeat constructor; lia).
  assert (code_units [233; 8364; 55357; 56832; 120]) as Hch by (repeat constructor; lia).
  destruct (solver_iteration 0 [233; 8364; 55357; 56832; 120] 0 0 Hch H0 ltac:(lia))
    as (_ & _ & _ & _ & _ & _ & _ & Hdigest & _ & _ & t0 & _ & -> & Hyes0 & _).
  destruct (solver_iteration 0 (lit "abc123") 1 17 Habc H1 ltac:(lia))
    as (_ & _ & _ & _ & _ & _ & _ & _ & _ & _ & target & _ & -> & Hyes & _).
  destruct (solver_iteration 0 (lit "abc123") 1 16 Habc H1 ltac:(lia))
    as (_ & _ & _ & _ & _ & _ & _ & _ & _ & _ & target' & _ & -> & _ & Hno).
  split; [|split].
  - refine (eq_trans (Hyes0 _) _).
    + intros i Hi. lia.
    + rewrite Hdigest. vm_compute. reflexivity.
  - refine (eq_trans (Hyes _) _).
    + apply startsWith_leading_zeros; [lia | vm_compute; reflexivity].
    + vm_compute. reflexivity.
  - refine (eq_trans (Hno _) _); [|reflexivity].
    intros H. apply startsWith_leading_zeros in H; [|lia].
    vm_compute in H. discriminate.
Defined.

(** ** Running the handlers *)

Lemma or_else_nonempty v fallback : fallback ≠ [] → or_else v fallback ≠ [].
Proof. intros H. destruct v as [[|c s]|]; simpl; done. Qed.

Lemma or_else_fallback v fallback : truthy v = false → or_else v fallback = fallback.
Proof. destruct v as [[|c s]|]; simpl; done. Qed.

Ltac run_handler :=
  cbv beta iota zeta delta
    [login Register_handleSubmit Login_handleSubmit App_checkAuth App_handleLogin
     App_handleLogout fetchCurrentUser bind try_finally try_catch detached
     request await ret in_Register in_Login in_App getItem setItem removeItem
     with_localStorage record_exchange];
  cbn -[authToken lit].

(** ** Register.js: [handleSubmit] *)

(** C4: when the challenge cannot be fetched, the attempt ends in the
    failed state with a non-empty message, the server's detail if it sent
    one and the generic text otherwise; the only exchange is the rejected
    challenge request, so the registration endpoint is not called and nothing
    is retried. *)
Theorem handleSubmit_challenge_failure api fuel w error :
  reply_getChallenge api (exchanges w) = inl error →
  ∃ w' message,
    Register_handleSubmit api fuel w = (Returned tt, w')
    ∧ registerState w'
      = {| Register.username := Register.username (registerState w);
           Register.password := Register.password (registerState w);
           Register.loading := false;
           Register.result :=
             Some {| Register.success := false; Register.message := message |} |}
    ∧ message ≠ []
    ∧ (∀ c detail, error = AxiosError (Some (c :: detail)) → message = c :: detail)
    ∧ (truthy (error_detail error) = false →
       message = lit "Registration failed. Please try again.")
    ∧ exchanges w' = exchanges w ++ [(getChallenge, Some error)].
Proof.
  intros H. eexists _, _. run_handler. rewrite H. cbn -[lit].
  split; [reflexivity|]. split; [reflexivity|].
  split; [by apply or_else_nonempty|].
  split; [by intros c detail ->|].
  split; [apply or_else_fallback | reflexivity].
Qed.

Lemma handleSubmit_challenge_failure_witness :
  reply_getChallenge offline (exchanges (typed ∅)) = inl (AxiosError None)
  ∧ ∃ w',
      Register_handleSubmit offline 0 (typed ∅) = (Returned tt, w')
      ∧ Register.result (registerState w')
        = Some {| Register.success := false;
                  Register.message := lit "Registration failed. Please try again." |}
      ∧ exchanges w' = [(getChallenge, Some (AxiosError None))].
Proof.
  split; [reflexivity|].
  destruct (handleSubmit_challenge_failure offline 0 (typed ∅) (AxiosError None) eq_refl)
    as (w' & message & Hrun & Hstate & _ & _ & Hgeneric & Hx).
  exists w'. split; [exact Hrun|].
  rewrite Hstate, Hx, (Hgeneric eq_refl). split; reflexivity.
Defined.

(** A negative difficulty: the RangeError of the solver is caught like any
    other error, and nothing is submitted. *)
Example handleSubmit_negative_difficulty :
  let w' := (Register_handleSubmit (server (-1)) 5 (typed ∅)).2 in
  Register.result (registerState w') = Some (Machine.failed RangeError)
  ∧ Register.message (Machine.failed RangeError)
    = lit "Registration failed. Please try again."
  ∧ exchanges w' = [(getChallenge, None)].
Proof. vm_compute. repeat split. Qed.

(** What [handleSubmit] does once the challenge is there and the solver has
    returned: one registration request carrying the solver's pair, and the
    result set from its reply. *)
Lemma handleSubmit_solved api fuel w data s :
  reply_getChallenge api (exchanges w) = inr data →
  calculateProofOfWork fuel (Challenge.challenge data) (Challenge.difficulty data)
  = Returned s →
  let userData :=
    {| Request.username := Register.username (registerState w);
       Request.password := Register.password (registerState w);
       Request.nonce := nonce s; Request.hash := hash s;
       Request.active := false |} in
  let reply :=
    reply_registerUser api (exchanges w ++ [(getChallenge, None)]) userData
                       (Challenge.token data) in
  Register_handleSubmit api fuel w
  = (Returned tt,
     {| localStorage := localStorage w;
        exchanges := exchanges w ++ [(getChallenge, None)]
                     ++ [(registerUser userData (Challenge.token data),
                          match reply with inl e => Some e | inr _ => None end)];
        registerState :=
          {| Register.username := Register.username (registerState w);
             Register.password := Register.password (registerState w);
             Register.loading := false;
             Register.result :=
               Some match reply with
                    | inl e => Machine.failed e
                    | inr _ => Machine.succeeded
                    end |};
        loginState := loginState w;
        appState := appState w |}).
Proof.
  intros Hc Hs. run_handler. rewrite Hc. cbn. rewrite Hs. cbn.
  destruct (reply_registerUser _ _ _ _); cbn; rewrite <- app_assoc; reflexivity.
Qed.

(** C6: the digest in the solver's solution is the digest recomputed from
    the challenge and the returned nonce, and the registration request that
    [handleSubmit] sends carries exactly that nonce and that digest. *)
Theorem submitted_solution_is_solver_output api fuel w data s :
  reply_getChallenge api (exchanges w) = inr data →
  calculateProofOfWork fuel (Challenge.challenge data) (Challenge.difficulty data)
  = Returned s →
  hash s = sha256_hex (Challenge.challenge data ++ nonce s)
  ∧ (∃ n, 0 <= n ∧ nonce s = Number_toString n ∧ hash s = digest_of (Challenge.challenge data) n)
  ∧ ∃ userData reply,
      exchanges (Register_handleSubmit api fuel w).2
      = exchanges w ++ [(getChallenge, None);
                        (registerUser userData (Challenge.token data), reply)]
      ∧ Request.nonce userData = nonce s
      ∧ Request.hash userData = hash s
      ∧ Request.hash userData
        = sha256_hex (Challenge.challenge data ++ Request.nonce userData).
Proof.
  intros Hc Hs. pose proof (handleSubmit_solved _ _ _ _ _ Hc Hs) as Hrun.
  apply calculateProofOfWork_returned in Hs as (_ & n & Hsearch & ->).
  apply search_sound in Hsearch as (Hn & _).
  cbn [nonce hash] in *. repeat split.
  - exists n. done.
  - eexists _, _. rewrite Hrun. cbn. repeat split.
Qed.

Lemma submitted_solution_is_solver_output_witness :
  let data := {| Challenge.challenge := lit "abc123"; Challenge.difficulty := 1;
                 Challenge.token := lit "tok" |} in
  let s := {| nonce := lit "17";
              hash := lit "0419759720a926ce720b064c835fcdbccae38d6405d760983ca943e773b73567" |} in
  reply_getChallenge (server 1) (exchanges (typed ∅)) = inr data
  ∧ calculateProofOfWork 18 (lit "abc123") 1 = Returned s
  ∧ hash s = sha256_hex (lit "abc123" ++ nonce s)
  ∧ exchanges (Register_handleSubmit (server 1) 18 (typed ∅)).2
    = [(getChallenge, None);
       (registerUser {| Request.username := lit "alice";
                        Request.password := lit "secret";
                        Request.nonce := nonce s; Request.hash := hash s;
                        Request.active := false |} (lit "tok"), None)].
Proof.
  intros data s.
  assert (calculateProofOfWork 18 (lit "abc123") 1 = Returned s) as Hs.
  { vm_compute. reflexivity. }
  destruct (submitted_solution_is_solver_output (server 1) 18 (typed ∅) data s
              eq_refl Hs) as (Hh & _ & userData & reply & Hx & Hn & Hd & _).
  split; [reflexivity|]. split; [exact Hs|]. split; [exact Hh|].
  vm_compute. reflexivity.
Defined.

(** C7, as stated, fails: after a successful registration the form still
    holds the username and the password that were typed. *)
Lemma handleSubmit_success_keeps_fields :
  let w' := (Register_handleSubmit (server 1) 18 (typed ∅)).2 in
  Register.result (registerState w') = Some Machine.succeeded
  ∧ Register.username (registerState w') = lit "alice"
  ∧ Register.password (registerState w') = lit "secret"
  ∧ ¬ (Register.username (registerState w') = []
       ∧ Register.password (registerState w') = []).
Proof.
  assert ((Register_handleSubmit (server 1) 18 (typed ∅)).2
          = {| localStorage := ∅;
               exchanges := exchanges (Register_handleSubmit (server 1) 18 (typed ∅)).2;
               registerState :=
                 {| Register.username := lit "alice"; Register.password := lit "secret";
                    Register.loading := false;
                    Register.result := Some Machine.succeeded |};
               loginState := loginState (typed ∅);
               appState := appState (typed ∅) |}) as ->.
  { vm_compute. reflexivity. }
  cbn. repeat split. intros [H _]. discriminate.
Qed.

(** C7, amended: when the registration submission succeeds, the component
    is in the success state, with the message of the source and with the
    loading flag released; the username and the password of the form are left
    as they were. *)
Theorem handleSubmit_success api fuel w data s :
  reply_getChallenge api (exchanges w) = inr data →
  calculateProofOfWork fuel (Challenge.challenge data) (Challenge.difficulty data)
  = Returned s →
  reply_registerUser api (exchanges w ++ [(getChallenge, None)])
    {| Request.username := Register.username (registerState w);
       Request.password := Register.password (registerState w);
       Request.nonce := nonce s; Request.hash := hash s;
       Request.active := false |} (Challenge.token data) = inr tt →
  ∃ w',
    Register_handleSubmit api fuel w = (Returned tt, w')
    ∧ Register.result (registerState w')
      = Some {| Register.success := true;
                Register.message := lit "Registration successful!" |}
    ∧ Register.loading (registerState w') = false
    ∧ Register.username (registerState w') = Register.username (registerState w)
    ∧ Register.password (registerState w') = Register.password (registerState w).
Proof.
  intros Hc Hs Hr. eexists. rewrite (handleSubmit_solved _ _ _ _ _ Hc Hs).
  cbn zeta. rewrite Hr. cbn. repeat split.
Qed.

Lemma handleSubmit_success_witness :
  ∃ w',
    Register_handleSubmit (server 0) 1 (typed ∅) = (Returned tt, w')
    ∧ Register.result (registerState w')
      = Some {| Register.success := true;
                Register.message := lit "Registration successful!" |}
    ∧ Register.loading (registerState w') = false
    ∧ Register.username (registerState w') = Register.username (registerState (typed ∅))
    ∧ Register.password (registerState w') = Register.password (registerState (typed ∅)).
Proof.
  apply (handleSubmit_success (server 0) 1 (typed ∅)
           {| Challenge.challenge := lit "abc123"; Challenge.difficulty := 0;
              Challenge.token := lit "tok" |}
           {| nonce := lit "0"; hash := digest_of (lit "abc123") 0 |});
    reflexivity.
Defined.

(** ** Register.js: the submit guard *)

Lemma guarded_mounted : guarded Machine.mounted.
Proof. left. done. Qed.

Lemma lookup_singleton_Some {A} (a b : A) i : [a] !! i = Some b → i = 0%nat ∧ b = a.
Proof. destruct i as [|[|i]]; simpl; intros [=]; done. Qed.

Ltac at_attempt H :=
  match type of H with
  | context [?l !! ?i] =>
      let a := fresh "a" in
      let E := fresh "E" in
      destruct (l !! i) as [a|] eqn:E; [|discriminate]
  end.

Lemma step_guarded c ev c' : guarded c → Machine.step c ev = Some c' → guarded c'.
Proof.
  intros [[Hl Hi]|[Hl [a0 Hi]]] H; destruct c as [f l]; cbn in *; subst l.
  - destruct ev; cbn in H; try discriminate.
    + unfold Register.button_disabled in H. rewrite Hl in H.
      destruct (Register.fields_filled f); [|discriminate].
      injection H as <-. right. cbn. eauto.
    + injection H as <-. left. done.
    + injection H as <-. left. done.
  - destruct ev; cbn -[String_repeat startsWith sha256_hex] in H.
    + unfold Register.button_disabled in H. rewrite Hl in H. discriminate.
    + injection H as <-. right. cbn. eauto.
    + injection H as <-. right. cbn. eauto.
    + at_attempt H. apply lookup_singleton_Some in E as [-> ->].
      destruct (Machine.phase a0); try discriminate.
      destruct (String_repeat _ _); injection H as <-; [left | right]; cbn; eauto.
    + at_attempt H. apply lookup_singleton_Some in E as [-> ->].
      destruct (Machine.phase a0); try discriminate.
      injection H as <-. left. done.
    + at_attempt H. apply lookup_singleton_Some in E as [-> ->].
      destruct (Machine.phase a0); try discriminate.
      destruct (startsWith _ _); injection H as <-; right; cbn; eauto.
    + at_attempt H. apply lookup_singleton_Some in E as [-> ->].
      destruct (Machine.phase a0); try discriminate.
      injection H as <-. left. done.
    + at_attempt H. apply lookup_singleton_Some in E as [-> ->].
      destruct (Machine.phase a0); try discriminate.
      injection H as <-. left. done.
Qed.

Lemma reachable_guarded c : Machine.reachable c → guarded c.
Proof.
  induction 1 as [|c ev c' _ IH Hstep]; [apply guarded_mounted|].
  eapply step_guarded; eassumption.
Qed.

(** Only the end of an invocation turns [loading] off, and it sets the
    result. *)
Lemma step_release c ev c' :
  Machine.step c ev = Some c' →
  Register.loading (Machine.form c) = true →
  Register.loading (Machine.form c') = false →
  settled c' ∧ (length (Machine.inflight c') < length (Machine.inflight c))%nat.
Proof.
  intros H Hl Hl'. destruct c as [f l]; cbn in *.
  assert (∀ i (a : Machine.Attempt), l !! i = Some a →
            (length (delete i l) < length l)%nat) as Hdel.
  { intros i a Hi. apply lookup_lt_Some in Hi.
    rewrite length_delete by (by apply lookup_lt_is_Some_2). lia. }
  destruct ev; cbn -[String_repeat startsWith sha256_hex] in H;
    try (at_attempt H; destruct (Machine.phase a); try discriminate).
  - destruct (Register.button_disabled f || negb (Register.fields_filled f));
      [discriminate|].
    injection H as <-. cbn in Hl'. discriminate.
  - injection H as <-. cbn in Hl'. congruence.
  - injection H as <-. cbn in Hl'. congruence.
  - destruct (String_repeat _ _); injection H as <-; cbn in *; [|congruence].
    split; [|eauto]. eexists. split; [done|]. right. eauto.
  - injection H as <-. cbn. split; [|eauto]. eexists. split; [done|]. right. eauto.
  - destruct (startsWith _ _); injection H as <-; cbn in *; congruence.
  - injection H as <-. cbn. split; [|eauto]. eexists. split; [done|]. left. done.
  - injection H as <-. cbn. split; [|eauto]. eexists. split; [done|]. right. eauto.
Qed.

Lemma run_reachable c evs c' :
  Machine.reachable c → Machine.run c evs = Some c' → Machine.reachable c'.
Proof.
  revert c. induction evs as [|ev evs IH]; intros c Hc H; cbn in H.
  - by injection H as <-.
  - destruct (Machine.step c ev) as [c1|] eqn:E; [|discriminate].
    eapply IH; [|eassumption]. econstructor; eassumption.
Qed.

(** C8: in every state the mounted component can reach, at most one
    invocation of [handleSubmit] is in flight, and [loading] is true exactly
    while one is; while it is, in the challenge, solving or submitting phase,
    the disabled button refuses a submit trigger, so no event starts a second
    invocation; and an event that turns [loading] off ends the invocation
    with the success or a failure set. *)
Theorem submit_guard c :
  Machine.reachable c →
  (length (Machine.inflight c) ≤ 1)%nat
  ∧ (Register.loading (Machine.form c) = true ↔ Machine.inflight c ≠ [])
  ∧ (Machine.inflight c ≠ [] → Machine.step c Machine.Submit = None)
  ∧ ∀ ev c', Machine.step c ev = Some c' →
      (length (Machine.inflight c') ≤ 1)%nat
      ∧ (Register.loading (Machine.form c) = true →
         Register.loading (Machine.form c') = false →
         settled c' ∧ Machine.inflight c' = []).
Proof.
  intros Hr. pose proof (reachable_guarded c Hr) as Hg.
  assert (∀ d, guarded d → (length (Machine.inflight d) ≤ 1)%nat) as Hlen.
  { intros d [[_ ->]|[_ [a ->]]]; simpl; lia. }
  repeat split.
  - by apply Hlen.
  - destruct Hg as [[Hl Hi]|[Hl [a Hi]]]; rewrite Hi; [congruence | done].
  - destruct Hg as [[Hl Hi]|[Hl [a Hi]]]; rewrite Hi; done.
  - intros Hi. destruct Hg as [[_ Hn]|[Hl _]]; [done|].
    cbn. unfold Register.button_disabled. by rewrite Hl.
  - apply Hlen. eapply step_guarded; eassumption.
  - eapply step_release; eassumption.
  - pose proof (step_guarded _ _ _ Hg H) as [[_ Hi]|[Hl' _]]; [done | congruence].
Qed.

Lemma submit_guard_witness :
  ∃ c,
    Machine.run Machine.mounted
      [Machine.TypeUsername (lit "alice"); Machine.TypePassword (lit "secret");
       Machine.Submit;
       Machine.ChallengeResolved 0
         {| Challenge.challenge := lit "abc123"; Challenge.difficulty := 1;
            Challenge.token := lit "tok" |}] = Some c
    ∧ Machine.reachable c
    ∧ Machine.inflight c ≠ []
    ∧ Machine.step c Machine.Submit = None.
Proof.
  set (evs := [Machine.TypeUsername (lit "alice");
               Machine.TypePassword (lit "secret"); Machine.Submit;
               Machine.ChallengeResolved 0
                 {| Challenge.challenge := lit "abc123"; Challenge.difficulty := 1;
                    Challenge.token := lit "tok" |}]).
  destruct (Machine.run Machine.mounted evs) as [c|] eqn:Hrun; [|discriminate].
  exists c. split; [reflexivity|].
  pose proof (run_reachable _ _ _ Machine.reachable_mounted Hrun) as Hr.
  assert (Machine.inflight c ≠ []) as Hi.
  { vm_compute in Hrun. injection Hrun as <-. discriminate. }
  split; [exact Hr|]. split; [exact Hi|].
  apply (submit_guard c Hr). exact Hi.
Defined.

Example double_submit_refused :
  let filled := [Machine.TypeUsername (lit "alice"); Machine.TypePassword (lit "secret")] in
  is_Some (Machine.run Machine.mounted (filled ++ [Machine.Submit]))
  ∧ Machine.run Machine.mounted (filled ++ [Machine.Submit; Machine.Submit]) = None.
Proof. split; [eexists|]; reflexivity. Qed.

(** ** App.js and Login.js: the session *)

(** C3: at start-up, when a token is stored and the current-user call made
    for it is rejected, the session is anonymous and the token is removed
    from [localStorage]; when no token is stored, the session is anonymous
    and no call is made. *)
Theorem checkAuth_restore api w :
  appState w = App.initial →
  ∃ w',
    App_checkAuth api w = (Returned tt, w')
    ∧ App.loading (appState w') = false
    ∧ (∀ t error,
         localStorage w !! authToken = Some t →
         exchanges w' = exchanges w ++ [(getCurrentUser, Some error)] →
         Anonymous (appState w') ∧ localStorage w' !! authToken = None)
    ∧ (localStorage w !! authToken = None →
       Anonymous (appState w') ∧ exchanges w' = exchanges w
       ∧ localStorage w' = localStorage w).
Proof.
  intros Hinit. destruct w as [stored xs rs ls s]. cbn in Hinit. subst s.
  run_handler. destruct (stored !! authToken) as [[|c t]|] eqn:Ht; cbn -[authToken lit].
  - eexists. split; [done|]. split; [done|]. split; [|done].
    intros t error _ Hx. cbn in Hx.
    apply (f_equal length) in Hx. rewrite length_app in Hx. simpl in Hx. lia.
  - destruct (reply_getCurrentUser api xs stored) as [e|data] eqn:Hr; cbn -[authToken lit].
    + eexists. split; [done|]. split; [done|]. split; [|done].
      intros _ _ _ _. split; [done|]. cbn -[authToken]. apply lookup_delete_eq.
    + eexists. split; [done|]. split; [done|]. split; [|done].
      intros t' error _ Hx. cbn in Hx. apply app_inv_head in Hx. discriminate.
  - eexists. split; [done|]. split; [done|]. split; [|done].
    intros t error [=].
Qed.

Lemma checkAuth_restore_witness :
  ∃ w',
    App_checkAuth (server 1) (loaded {[authToken := lit "stale"]}) = (Returned tt, w')
    ∧ exchanges w'
      = [(getCurrentUser, Some (AxiosError (Some (lit "Could not validate credentials"))))]
    ∧ Anonymous (appState w') ∧ localStorage w' !! authToken = None.
Proof.
  destruct (checkAuth_restore (server 1) (loaded {[authToken := lit "stale"]}) eq_refl)
    as (w' & Hrun & _ & Hrejected & _).
  exists w'. split; [exact Hrun|].
  assert (exchanges w'
          = [(getCurrentUser,
              Some (AxiosError (Some (lit "Could not validate credentials"))))]) as Hx.
  { vm_compute in Hrun. injection Hrun as <-. reflexivity. }
  split; [exact Hx|].
  apply (Hrejected (lit "stale") _ eq_refl Hx).
Defined.

(** A stored empty token is falsy: no call is made and it stays stored. *)
Example checkAuth_empty_token :
  App_checkAuth (server 1) (loaded {[authToken := []]})
  = (Returned tt,
     {| localStorage := {[authToken := []]}; exchanges := [];
        registerState := Register.initial; loginState := Login.initial;
        appState := App.setLoading false App.initial |}).
Proof. vm_compute. reflexivity. Qed.

(** Every run of [login], by the reply of the login service, whether the
    token fits into [localStorage], and the reply of the current-user call. *)
Lemma login_cases api w :
  let username := Login.username (loginState w) in
  let password := Login.password (loginState w) in
  match reply_loginUser api (exchanges w) username password with
  | inl error =>
      login api w
      = (Returned tt,
         {| localStorage := localStorage w;
            exchanges := exchanges w ++ [(loginUser username password, Some error)];
            registerState := registerState w;
            loginState :=
              {| Login.username := username; Login.password := password;
                 Login.error := lit "Login failed: "
                                ++ or_else (error_detail error) (lit "Unknown error") |};
            appState := appState w |})
  | inr access_token =>
      let xs := exchanges w ++ [(loginUser username password, None)] in
      if storage_full api (localStorage w) authToken access_token
      then
        login api w
        = (Returned tt,
           {| localStorage := localStorage w; exchanges := xs;
              registerState := registerState w;
              loginState :=
                {| Login.username := username; Login.password := password;
                   Login.error := lit "Login failed: Unknown error" |};
              appState := appState w |})
      else
        let stored := <[authToken := access_token]> (localStorage w) in
        match reply_getCurrentUser api xs stored with
        | inl error =>
            login api w
            = (Returned tt,
               {| localStorage := stored;
                  exchanges := xs ++ [(getCurrentUser, Some error)];
                  registerState := registerState w;
                  loginState :=
                    {| Login.username := username; Login.password := password;
                       Login.error := [] |};
                  appState := appState w |})
        | inr profile =>
            login api w
            = (Returned tt,
               {| localStorage := stored;
                  exchanges := xs ++ [(getCurrentUser, None)];
                  registerState := registerState w;
                  loginState :=
                    {| Login.username := username; Login.password := password;
                       Login.error := [] |};
                  appState :=
                    App.setIsLoggedIn true
                      (App.setUserData (Some profile) (appState w)) |})
        end
  end.
Proof.
  destruct w as [stored xs rs ls s]. cbn zeta.
  cbn [exchanges loginState localStorage registerState appState].
  destruct (reply_loginUser api xs _ _) as [e|tok] eqn:Hl.
  - run_handler. rewrite Hl. reflexivity.
  - destruct (storage_full api stored authToken tok) eqn:Hq.
    + run_handler. rewrite Hl. cbn -[authToken lit]. rewrite Hq. reflexivity.
    + destruct (reply_getCurrentUser api _ _) as [e|profile] eqn:Hg;
        run_handler; rewrite Hl; cbn -[authToken lit]; rewrite Hq;
        cbn -[authToken lit];
        match goal with
        | |- context [reply_getCurrentUser ?a ?x ?m] =>
            replace (reply_getCurrentUser a x m) with (reply_getCurrentUser api
              (xs ++ [(loginUser (Login.username ls) (Login.password ls), None)])
              (<[authToken:=tok]> stored)) by reflexivity
        end; rewrite Hg; reflexivity.
Qed.

(** Between the two halves of C5: when the login is accepted and the
    token stored, and the current-user call of [handleLogin] then fails, the
    error is only logged: the token stays stored, the session is as before
    and the form shows no error. *)
Lemma login_profile_fetch_fails api w access_token error :
  reply_loginUser api (exchanges w) (Login.username (loginState w))
                  (Login.password (loginState w)) = inr access_token →
  storage_full api (localStorage w) authToken access_token = false →
  reply_getCurrentUser api
    (exchanges w ++ [(loginUser (Login.username (loginState w))
                                (Login.password (loginState w)), None)])
    (<[authToken := access_token]> (localStorage w)) = inl error →
  appState (login api w).2 = appState w
  ∧ localStorage (login api w).2 !! authToken = Some access_token
  ∧ Login.error (loginState (login api w).2) = [].
Proof.
  intros Hl Hq Hg. pose proof (login_cases api w) as H. cbn zeta in H.
  rewrite Hl, Hq, Hg in H. rewrite H. cbn -[authToken].
  split; [done|]. split; [apply lookup_insert_eq | done].
Qed.



(** C9: [handleLogout] removes the stored token and makes the session
    anonymous from every state, and a second call changes nothing. *)
Theorem handleLogout_idempotent w :
  ∃ w1,
    App_handleLogout w = (Returned tt, w1)
    ∧ Anonymous (appState w1)
    ∧ localStorage w1 !! authToken = None
    ∧ App_handleLogout w1 = (Returned tt, w1).
Proof.
  destruct w as [stored xs rs ls s]. run_handler.
  eexists. split; [done|]. cbn -[authToken]. split; [done|].
  split; [apply lookup_delete_eq|].
  unfold App.setUserData, App.setIsLoggedIn. cbn -[authToken].
  by rewrite delete_delete_eq.
Qed.

Example handleLogout_twice :
  let stored : gmap jsstring jsstring := {[authToken := lit "jwt"]} in
  (App_handleLogout ;; App_handleLogout) (typed stored) = App_handleLogout (typed stored)
  ∧ localStorage (App_handleLogout (typed stored)).2 = ∅.
Proof. vm_compute. split; reflexivity. Qed.

(** ** The two views of [handleSubmit] agree *)

Lemma run_app c evs evs' c1 :
  Machine.run c evs = Some c1 → Machine.run c (evs ++ evs') = Machine.run c1 evs'.
Proof.
  revert c. induction evs as [|ev evs IH]; intros c H; cbn in *.
  - by injection H as <-.
  - destruct (Machine.step c ev); [by apply IH | discriminate].
Qed.

(** The iterations of the loop, as events of the component. *)
Lemma solving_run fuel data target f u p n n' h :
  search fuel (Challenge.challenge data) target n = Some (n', h) →
  ∃ k,
    Machine.run
      {| Machine.form := f;
         Machine.inflight :=
           [{| Machine.username := u; Machine.password := p;
               Machine.phase := Machine.Solving data target n |}] |}
      (repeat (Machine.SolverIteration 0) k)
    = Some
      {| Machine.form := f;
         Machine.inflight :=
           [{| Machine.username := u; Machine.password := p;
               Machine.phase :=
                 Machine.Submitting
                   {| Request.username := u; Request.password := p;
                      Request.nonce := Number_toString n'; Request.hash := h;
                      Request.active := false |} (Challenge.token data) |}] |}.
Proof.
  revert n. induction fuel as [|fuel IH]; intros n H; [discriminate|].
  cbn [search] in H.
  destruct (startsWith (sha256_hex (dataString (Challenge.challenge data) n)) target)
    eqn:E.
  - injection H as <- <-. exists 1%nat.
    cbn -[startsWith sha256_hex Number_toString]. rewrite E. reflexivity.
  - destruct (IH _ H) as [k Hk]. exists (S k).
    cbn -[startsWith sha256_hex Number_toString]. rewrite E. exact Hk.
Qed.

(** Every finished run of the handler from an enabled form is a run of the
    component that starts and ends with nothing in flight. *)
Lemma handleSubmit_is_machine_run api fuel w w' :
  Register.loading (registerState w) = false →
  Register.fields_filled (registerState w) = true →
  Register_handleSubmit api fuel w = (Returned tt, w') →
  ∃ evs,
    Machine.run {| Machine.form := registerState w; Machine.inflight := [] |} evs
    = Some {| Machine.form := registerState w'; Machine.inflight := [] |}.
Proof.
  intros Hl Hf.
  destruct (reply_getChallenge api (exchanges w)) as [e|data] eqn:Hc.
  - destruct w as [stored xs [[|u0 u] [|p0 p] l r] ls s]; try discriminate.
      cbn in Hl, Hc. subst l.
    run_handler. rewrite Hc. cbn. intros [= <-].
    exists [Machine.Submit; Machine.ChallengeRejected 0 e]. reflexivity.
  - destruct (calculateProofOfWork fuel (Challenge.challenge data)
                (Challenge.difficulty data)) as [sol|e|] eqn:Hs.
    + rewrite (handleSubmit_solved _ _ _ _ _ Hc Hs). cbn zeta.
      destruct w as [stored xs [[|u0 u] [|p0 p] l r] ls s]; try discriminate.
      cbn in Hl, Hc. subst l.
      cbn [exchanges registerState Register.username Register.password].
      intros [= <-]. cbn [registerState].
      unfold calculateProofOfWork in Hs.
      destruct (String_repeat 48 (Challenge.difficulty data)) as [|target] eqn:Ht;
        [discriminate|].
      destruct (search _ _ _ _) as [[n h]|] eqn:Hn; [|discriminate].
      injection Hs as <-. cbn [nonce hash].
      destruct (solving_run _ _ _
                  (Register.setResult None (Register.setLoading true
                     {| Register.username := u0 :: u; Register.password := p0 :: p;
                        Register.loading := false; Register.result := r |}))
                  (u0 :: u) (p0 :: p) _ _ _ Hn) as [k Hk].
      destruct (reply_registerUser api _ _ _) as [e|[]].
      * exists ([Machine.Submit; Machine.ChallengeResolved 0 data]
                ++ repeat (Machine.SolverIteration 0) k
                ++ [Machine.RegisterRejected 0 e]).
        cbn -[String_repeat repeat]. rewrite Ht. cbn -[repeat].
        unfold Machine.move. cbn -[repeat].
        rewrite (run_app _ _ _ _ Hk). reflexivity.
      * exists ([Machine.Submit; Machine.ChallengeResolved 0 data]
                ++ repeat (Machine.SolverIteration 0) k
                ++ [Machine.RegisterResolved 0]).
        cbn -[String_repeat repeat]. rewrite Ht. cbn -[repeat].
        unfold Machine.move. cbn -[repeat].
        rewrite (run_app _ _ _ _ Hk). reflexivity.
    + destruct w as [stored xs [[|u0 u] [|p0 p] l r] ls s]; try discriminate.
      cbn in Hl, Hc. subst l.
      run_handler. rewrite Hc. cbn. rewrite Hs. cbn. intros [= <-].
      exists [Machine.Submit; Machine.ChallengeResolved 0 data].
      unfold calculateProofOfWork in Hs.
      cbn -[String_repeat].
      destruct (String_repeat 48 (Challenge.difficulty data)) as [e'|target];
        [|destruct (search _ _ _ _) as [[? ?]|]; discriminate].
      injection Hs as ->. reflexivity.
    + destruct w as [stored xs [[|u0 u] [|p0 p] l r] ls s]; try discriminate.
      cbn in Hl, Hc. subst l.
      run_handler. rewrite Hc. cbn. rewrite Hs. cbn. discriminate.
Qed.

(** * Further properties of the solver *)

(** X1: with difficulty 0 the target is the empty string, which every
    digest starts with: the solver returns nonce ["0"] and its digest in the
    first iteration, for every challenge. *)
Theorem solver_zero_difficulty fuel challenge :
  calculateProofOfWork (S fuel) challenge 0
  = Returned {| nonce := lit "0"; hash := sha256_hex (challenge ++ lit "0") |}.
Proof. reflexivity. Qed.

(** X2: a difficulty above 64 is never met, a digest having 64
    characters: for every challenge the solver returns no solution, however
    many iterations it is given.  Up to the longest string the engine builds
    it runs on without end; past it, building the target throws a
    RangeError before the first iteration. *)
Theorem solver_never_returns_above_64 fuel challenge difficulty :
  64 < difficulty →
  (∀ s, calculateProofOfWork fuel challenge difficulty ≠ Returned s)
  ∧ (difficulty <= String_maxLength →
     calculateProofOfWork fuel challenge difficulty = OutOfFuel)
  ∧ (String_maxLength < difficulty →
     calculateProofOfWork fuel challenge difficulty = Thrown RangeError
     ∧ calculateProofOfWork 0 challenge difficulty = Thrown RangeError).
Proof.
  intros Hd.
  assert (String_maxLength < difficulty →
          ∀ k, calculateProofOfWork k challenge difficulty = Thrown RangeError) as Hpast.
  { intros H k. unfold calculateProofOfWork. by rewrite String_repeat_past_limit. }
  assert (difficulty <= String_maxLength →
          calculateProofOfWork fuel challenge difficulty = OutOfFuel) as Hrun.
  { intros H. unfold calculateProofOfWork. rewrite String_repeat_nonneg by lia.
    rewrite search_too_long; [done|]. rewrite repeat_length. lia. }
  split; [|split; [exact Hrun | by intros H; split; apply Hpast]].
  intros s Hs. destruct (Z.le_gt_cases difficulty String_maxLength) as [Hle|Hgt].
  - rewrite (Hrun Hle) in Hs. discriminate.
  - rewrite (Hpast Hgt) in Hs. discriminate.
Qed.

Lemma solver_never_returns_above_64_witness :
  64 < 65
  ∧ calculateProofOfWork 1000 (lit "abc123") 65 = OutOfFuel
  ∧ 64 < 2 ^ 30
  ∧ calculateProofOfWork 1000 (lit "abc123") (2 ^ 30) = Thrown RangeError.
Proof.
  destruct (solver_never_returns_above_64 1000 (lit "abc123") 65 ltac:(lia))
    as (_ & Hrun & _).
  destruct (solver_never_returns_above_64 1000 (lit "abc123") (2 ^ 30) ltac:(done))
    as (_ & _ & Hpast).
  split; [lia|]. split; [apply Hrun; by vm_compute|].
  split; [done|]. apply Hpast. by vm_compute.
Defined.

Lemma leading_zeros_weaken d d' h : d' <= d → leading_zeros d h → leading_zeros d' h.
Proof. intros Hd H i Hi. apply H. lia. Qed.

(** X3: a higher difficulty never gives a smaller nonce: when the solver
    returns for the difficulties [D' <= D] on the same challenge, the nonce
    found for [D'] is at most the nonce found for [D]. *)
Theorem solver_monotone_in_difficulty fuel fuel' challenge d d' s s' :
  0 <= d' <= d →
  calculateProofOfWork fuel challenge d = Returned s →
  calculateProofOfWork fuel' challenge d' = Returned s' →
  decimal_value (nonce s') <= decimal_value (nonce s).
Proof.
  intros Hd Hs Hs'.
  apply calculateProofOfWork_returned in Hs as (_ & n & Hn & ->).
  apply calculateProofOfWork_returned in Hs' as (_ & n' & Hn' & ->).
  apply search_sound in Hn as (Hn0 & _ & Hok & _).
  apply search_sound in Hn' as (Hn0' & _ & _ & Hmin').
  cbn [nonce].
  destruct (Number_toString_decimal n Hn0) as [-> _].
  destruct (Number_toString_decimal n' Hn0') as [-> _].
  destruct (Z.le_gt_cases n' n) as [|Hlt]; [done|].
  apply startsWith_leading_zeros in Hok; [|lia].
  apply (leading_zeros_weaken d d') in Hok; [|lia].
  apply startsWith_leading_zeros in Hok; [|lia].
  change (digest_of challenge n) with (sha256_hex (dataString challenge n)) in Hok.
  rewrite Hmin' in Hok by lia. discriminate.
Qed.

Lemma solver_monotone_in_difficulty_witness :
  decimal_value (lit "17") <= decimal_value (lit "188").
Proof.
  apply (solver_monotone_in_difficulty 189 18 (lit "abc123") 2 1
           {| nonce := lit "188";
              hash := lit "0099fa79a1e46a7cf739a512e2a2ccac9c2c180078e63e1fa5bd278058af6028" |}
           {| nonce := lit "17";
              hash := lit "0419759720a926ce720b064c835fcdbccae38d6405d760983ca943e773b73567" |});
    [lia | vm_compute; reflexivity | vm_compute; reflexivity].
Defined.

(** X4: for a fixed challenge two different nonces never give the same
    message to hash. *)
Theorem dataString_injective challenge n m :
  0 <= n → 0 <= m → n ≠ m → dataString challenge n ≠ dataString challenge m.
Proof.
  intros Hn Hm Hne H. unfold dataString in H. apply app_inv_head in H.
  apply Hne.
  rewrite <- (proj1 (Number_toString_decimal n Hn)),
          <- (proj1 (Number_toString_decimal m Hm)).
  by rewrite H.
Qed.

Lemma dataString_injective_witness :
  dataString (lit "abc123") 9 ≠ dataString (lit "abc123") 10.
Proof. apply (dataString_injective (lit "abc123") 9 10); lia. Defined.

Lemma hex_digit_injective d d' :
  0 <= d < 16 → 0 <= d' < 16 → hex_digit d = hex_digit d' → d = d'.
Proof.
  unfold hex_digit. intros Hd Hd'.
  destruct (d <? 10) eqn:E, (d' <? 10) eqn:E'; lia.
Qed.

(** X5: the hex encoding loses nothing: padded to two characters per
    byte, two different byte arrays never give the same hex string. *)
Theorem hex_of_bytes_injective bs bs' :
  Forall (λ b, 0 <= b < 256) bs → Forall (λ b, 0 <= b < 256) bs' →
  hex_of_bytes bs = hex_of_bytes bs' → bs = bs'.
Proof.
  intros Hbs Hbs'. rewrite !hex_of_bytes_nibbles by done.
  revert bs' Hbs'. induction Hbs as [|b bs Hb _ IH]; intros bs' Hbs' H.
  - destruct Hbs'; [done | discriminate].
  - destruct Hbs' as [|b' bs' Hb' Hbs']; [discriminate|].
    cbn [flat_map app] in H. injection H as Hhi Hlo Hrest.
    apply hex_digit_injective in Hhi;
      [|split; [apply Z.div_pos; lia | apply Z.div_lt_upper_bound; lia]..].
    apply hex_digit_injective in Hlo; [|apply Z.mod_pos_bound; lia..].
    f_equal; [|by apply IH].
    rewrite (Z.div_mod b 16), (Z.div_mod b' 16) by lia. congruence.
Qed.

Lemma hex_of_bytes_injective_witness :
  hex_of_bytes [1; 35] = lit "0123" ∧ [1; 35] ≠ [18; 3]
  ∧ hex_of_bytes [1; 35] ≠ hex_of_bytes [18; 3].
Proof.
  split; [reflexivity|]. split; [discriminate|]. intros H.
  apply (hex_of_bytes_injective [1; 35] [18; 3]) in H; [discriminate| |];
    repeat constructor; lia.
Defined.

(** X6: whatever the solver returns is well formed: the nonce is a string
    of decimal digits denoting a number from 0 to 2^53, the hash is 64
    lower-case hex characters of which the first [difficulty] are ['0'], and
    the difficulty is at most 64. *)
Theorem solution_well_formed fuel challenge difficulty s :
  calculateProofOfWork fuel challenge difficulty = Returned s →
  Forall is_decimal_digit (nonce s)
  ∧ 0 <= decimal_value (nonce s) <= 2 ^ 53
  ∧ length (hash s) = 64%nat
  ∧ Forall is_lower_hex (hash s)
  ∧ leading_zeros difficulty (hash s)
  ∧ 0 <= difficulty <= 64.
Proof.
  intros Hs.
  assert (difficulty <= 64) as Hle.
  { destruct (Z.le_gt_cases difficulty 64) as [|Hgt]; [done|].
    destruct (Z.le_gt_cases difficulty String_maxLength).
    - rewrite calculateProofOfWork_above_64 in Hs by lia. discriminate.
    - rewrite calculateProofOfWork_past_limit in Hs by lia. discriminate. }
  apply calculateProofOfWork_returned in Hs as (Hd & n & Hn & ->). cbn [nonce hash].
  assert (∀ k n0 n1 h, 0 <= n0 <= 2 ^ 53 →
            search k challenge (repeat 48 (Z.to_nat difficulty)) n0 = Some (n1, h) →
            n1 <= 2 ^ 53) as Hbound.
  { induction k as [|k IH]; intros n0 n1 h Hn0 Hk; [discriminate|].
    cbn [search] in Hk. destruct (startsWith _ _).
    - injection Hk as <- _. lia.
    - apply IH in Hk; [done|]. unfold increment. destruct (n0 <? 2 ^ 53) eqn:E; lia. }
  pose proof (Hbound fuel 0 n _ ltac:(split; [lia | by vm_compute]) Hn) as Hmax.
  apply search_sound in Hn as (Hn0 & _ & Hok & _).
  destruct (Number_toString_decimal n Hn0) as [-> Hdig].
  repeat split; try done; try lia.
  - apply length_sha256_hex.
  - apply hex_of_bytes_lower, digest_bytes.
  - by apply startsWith_leading_zeros.
Qed.

Lemma solution_well_formed_witness :
  let s := {| nonce := lit "17";
              hash := lit "0419759720a926ce720b064c835fcdbccae38d6405d760983ca943e773b73567" |} in
  calculateProofOfWork 18 (lit "abc123") 1 = Returned s
  ∧ Forall is_decimal_digit (nonce s)
  ∧ 0 <= decimal_value (nonce s) <= 2 ^ 53
  ∧ length (hash s) = 64%nat
  ∧ Forall is_lower_hex (hash s)
  ∧ leading_zeros 1 (hash s)
  ∧ 0 <= 1 <= 64.
Proof.
  intros s.
  assert (calculateProofOfWork 18 (lit "abc123") 1 = Returned s) as Hs.
  { vm_compute. reflexivity. }
  split; [exact Hs|]. apply (solution_well_formed 18 (lit "abc123") 1 s Hs).
Defined.

(** * Further properties of Register.js: [handleSubmit] *)

(** Every run of [handleSubmit], by the reply to the challenge request, the
    outcome of the solver and the reply to the registration request. *)
Lemma handleSubmit_cases api fuel w :
  match reply_getChallenge api (exchanges w) with
  | inl error =>
      Register_handleSubmit api fuel w
      = (Returned tt,
         submitted w false (Some (Machine.failed error)) [(getChallenge, Some error)])
  | inr data =>
      match calculateProofOfWork fuel (Challenge.challenge data)
                                 (Challenge.difficulty data) with
      | Thrown error =>
          Register_handleSubmit api fuel w
          = (Returned tt,
             submitted w false (Some (Machine.failed error)) [(getChallenge, None)])
      | OutOfFuel =>
          Register_handleSubmit api fuel w
          = (OutOfFuel, submitted w true None [(getChallenge, None)])
      | Returned s =>
          let userData :=
            {| Request.username := Register.username (registerState w);
               Request.password := Register.password (registerState w);
               Request.nonce := nonce s; Request.hash := hash s;
               Request.active := false |} in
          match reply_registerUser api (exchanges w ++ [(getChallenge, None)])
                                   userData (Challenge.token data) with
          | inl error =>
              Register_handleSubmit api fuel w
              = (Returned tt,
                 submitted w false (Some (Machine.failed error))
                   [(getChallenge, None);
                    (registerUser userData (Challenge.token data), Some error)])
          | inr _ =>
              Register_handleSubmit api fuel w
              = (Returned tt,
                 submitted w false (Some Machine.succeeded)
                   [(getChallenge, None);
                    (registerUser userData (Challenge.token data), None)])
          end
      end
  end.
Proof.
  destruct (reply_getChallenge api (exchanges w)) as [e|data] eqn:Hc.
  - run_handler. rewrite Hc. reflexivity.
  - destruct (calculateProofOfWork _ _ _) as [s|e|] eqn:Hs.
    + rewrite (handleSubmit_solved _ _ _ _ _ Hc Hs). cbn zeta.
      destruct (reply_registerUser _ _ _ _); reflexivity.
    + run_handler. rewrite Hc. cbn. rewrite Hs. reflexivity.
    + run_handler. rewrite Hc. cbn. rewrite Hs. reflexivity.
Qed.

(** X7: when the server rejects the registration itself, the attempt ends
    in the failed state with a non-empty message, the server's detail if it
    sent one and the generic text otherwise; [loading] is released, the form
    fields are kept, and the exchanges are the challenge request and the one
    rejected registration request. *)
Theorem handleSubmit_registration_rejected api fuel w data s error :
  reply_getChallenge api (exchanges w) = inr data →
  calculateProofOfWork fuel (Challenge.challenge data) (Challenge.difficulty data)
  = Returned s →
  reply_registerUser api (exchanges w ++ [(getChallenge, None)])
    {| Request.username := Register.username (registerState w);
       Request.password := Register.password (registerState w);
       Request.nonce := nonce s; Request.hash := hash s;
       Request.active := false |} (Challenge.token data) = inl error →
  ∃ w' message userData,
    Register_handleSubmit api fuel w = (Returned tt, w')
    ∧ registerState w'
      = {| Register.username := Register.username (registerState w);
           Register.password := Register.password (registerState w);
           Register.loading := false;
           Register.result :=
             Some {| Register.success := false; Register.message := message |} |}
    ∧ message ≠ []
    ∧ (∀ c detail, error = AxiosError (Some (c :: detail)) → message = c :: detail)
    ∧ (truthy (error_detail error) = false →
       message = lit "Registration failed. Please try again.")
    ∧ exchanges w'
      = exchanges w ++ [(getChallenge, None);
                        (registerUser userData (Challenge.token data), Some error)].
Proof.
  intros Hc Hs Hr. pose proof (handleSubmit_cases api fuel w) as H.
  rewrite Hc, Hs in H. cbn zeta in H. rewrite Hr in H.
  eexists _, _, _. split; [exact H|]. cbn -[lit].
  split; [reflexivity|]. split; [by apply or_else_nonempty|].
  split; [by intros c detail ->|].
  split; [apply or_else_fallback | reflexivity].
Qed.

Lemma handleSubmit_registration_rejected_witness :
  ∃ w',
    Register_handleSubmit server_rejecting_registration 1 (typed ∅) = (Returned tt, w')
    ∧ Register_result_box (registerState w')
      = Some (lit "result error", lit "Username already registered")
    ∧ length (exchanges w') = 2%nat.
Proof.
  destruct (handleSubmit_registration_rejected server_rejecting_registration 1 (typed ∅)
              {| Challenge.challenge := lit "abc123"; Challenge.difficulty := 0;
                 Challenge.token := lit "tok" |}
              {| nonce := lit "0"; hash := digest_of (lit "abc123") 0 |}
              (AxiosError (Some (lit "Username already registered")))
              eq_refl eq_refl eq_refl)
    as (w' & message & userData & Hrun & Hstate & _ & Hdetail & _ & Hx).
  exists w'. split; [exact Hrun|].
  unfold Register_result_box. rewrite Hstate, Hx. cbn -[lit].
  rewrite (Hdetail _ _ eq_refl). split; reflexivity.
Defined.

(** X8: a challenge with a negative difficulty makes the solver throw; the
    handler catches it like a server error: the attempt fails with the
    generic message, and no registration request is made. *)
Theorem handleSubmit_negative_difficulty_fails api fuel w data :
  reply_getChallenge api (exchanges w) = inr data →
  Challenge.difficulty data < 0 →
  Register_handleSubmit api fuel w
  = (Returned tt,
     submitted w false
       (Some {| Register.success := false;
                Register.message := lit "Registration failed. Please try again." |})
       [(getChallenge, None)]).
Proof.
  intros Hc Hd. pose proof (handleSubmit_cases api fuel w) as H. rewrite Hc in H.
  unfold calculateProofOfWork, String_repeat in H.
  destruct (Challenge.difficulty data <? 0) eqn:E; [exact H|].
  apply Z.ltb_ge in E. lia.
Qed.

Lemma handleSubmit_negative_difficulty_fails_witness :
  -3 < 0
  ∧ Register_handleSubmit (server (-3)) 10 (typed ∅)
    = (Returned tt,
       submitted (typed ∅) false
         (Some {| Register.success := false;
                  Register.message := lit "Registration failed. Please try again." |})
         [(getChallenge, None)]).
Proof.
  split; [lia|].
  apply (handleSubmit_negative_difficulty_fails (server (-3)) 10 (typed ∅)
           {| Challenge.challenge := lit "abc123"; Challenge.difficulty := -3;
              Challenge.token := lit "tok" |}); [reflexivity | cbn; lia].
Defined.

(** X9: no error escapes [handleSubmit].  Either it has finished, with
    [loading] released and the success or a failure set as result; or the
    solver is still running, with [loading] set, the previous result cleared
    and only the challenge fetched. *)
Theorem handleSubmit_never_throws api fuel w :
  ∃ w',
    (Register_handleSubmit api fuel w = (Returned tt, w')
     ∧ Register.loading (registerState w') = false
     ∧ ∃ r, Register.result (registerState w') = Some r
            ∧ (r = Machine.succeeded ∨ ∃ error, r = Machine.failed error))
    ∨ (Register_handleSubmit api fuel w = (OutOfFuel, w')
       ∧ Register.loading (registerState w') = true
       ∧ Register.result (registerState w') = None
       ∧ exchanges w' = exchanges w ++ [(getChallenge, None)]).
Proof.
  pose proof (handleSubmit_cases api fuel w) as H.
  destruct (reply_getChallenge api (exchanges w)) as [e|data].
  { eexists. left. split; [exact H|]. cbn. eauto 6. }
  destruct (calculateProofOfWork _ _ _) as [s|e|].
  - cbn zeta in H. destruct (reply_registerUser _ _ _ _) as [e|u];
      eexists; left; (split; [exact H|]); cbn; eauto 6.
  - eexists. left. split; [exact H|]. cbn. eauto 6.
  - eexists. right. split; [exact H|]. cbn. done.
Qed.

(** X10: [handleSubmit] touches nothing but its own [loading] and
    [result]: [localStorage], the typed username and password, and the state
    of Login and App are as before, and the exchanges so far are extended by
    the challenge request and at most one registration request. *)
Theorem handleSubmit_frame api fuel w :
  let w' := (Register_handleSubmit api fuel w).2 in
  localStorage w' = localStorage w
  ∧ loginState w' = loginState w
  ∧ appState w' = appState w
  ∧ Register.username (registerState w') = Register.username (registerState w)
  ∧ Register.password (registerState w') = Register.password (registerState w)
  ∧ ∃ r, exchanges w' = exchanges w ++ [(getChallenge, r)]
         ∨ ∃ userData token r',
             r = None
             ∧ exchanges w'
               = exchanges w ++ [(getChallenge, r); (registerUser userData token, r')].
Proof.
  pose proof (handleSubmit_cases api fuel w) as H. cbn zeta.
  destruct (reply_getChallenge api (exchanges w)) as [e|data].
  { rewrite H. cbn. repeat split. eauto. }
  destruct (calculateProofOfWork _ _ _) as [s|e|].
  - cbn zeta in H. destruct (reply_registerUser _ _ _ _) as [e|u];
      rewrite H; cbn; repeat split; exists None; right; eauto.
  - rewrite H. cbn. repeat split. eauto.
  - rewrite H. cbn. repeat split. eauto.
Qed.

(** X11: a registration request is only made once the challenge has
    arrived and the solver has returned; it carries the username and the
    password of the form, the solver's nonce and hash, [active: false], and
    the token of that challenge. *)
Theorem handleSubmit_request_from_form api fuel w userData token r :
  (registerUser userData token, r)
    ∈ drop (length (exchanges w)) (exchanges (Register_handleSubmit api fuel w).2) →
  ∃ data s,
    reply_getChallenge api (exchanges w) = inr data
    ∧ calculateProofOfWork fuel (Challenge.challenge data) (Challenge.difficulty data)
      = Returned s
    ∧ token = Challenge.token data
    ∧ userData
      = {| Request.username := Register.username (registerState w);
           Request.password := Register.password (registerState w);
           Request.nonce := nonce s; Request.hash := hash s;
           Request.active := false |}.
Proof.
  pose proof (handleSubmit_cases api fuel w) as H.
  destruct (reply_getChallenge api (exchanges w)) as [e|data].
  { rewrite H. cbn. rewrite drop_app_length. intros Hin.
    apply list_elem_of_singleton in Hin. discriminate. }
  destruct (calculateProofOfWork _ _ _) as [s|e|] eqn:Hs.
  - cbn zeta in H. destruct (reply_registerUser _ _ _ _) as [e|u];
      rewrite H; cbn; rewrite drop_app_length; intros Hin;
      apply elem_of_cons in Hin as [[=]|Hin];
      apply list_elem_of_singleton in Hin; injection Hin as -> -> _;
      exists data, s; repeat split; exact Hs.
  - rewrite H. cbn. rewrite drop_app_length. intros Hin.
    apply list_elem_of_singleton in Hin. discriminate.
  - rewrite H. cbn. rewrite drop_app_length. intros Hin.
    apply list_elem_of_singleton in Hin. discriminate.
Qed.

Lemma handleSubmit_request_from_form_witness :
  ∃ userData,
    (registerUser userData (lit "tok"), None)
      ∈ exchanges (Register_handleSubmit (server 0) 1 (typed ∅)).2
    ∧ Request.username userData = lit "alice"
    ∧ Request.password userData = lit "secret"
    ∧ Request.active userData = false.
Proof.
  set (userData := {| Request.username := lit "alice"; Request.password := lit "secret";
                      Request.nonce := lit "0"; Request.hash := digest_of (lit "abc123") 0;
                      Request.active := false |}).
  assert ((registerUser userData (lit "tok"), None)
            ∈ drop (length (exchanges (typed ∅)))
                   (exchanges (Register_handleSubmit (server 0) 1 (typed ∅)).2)) as Hin.
  { cbn. apply elem_of_cons. right. apply list_elem_of_singleton. reflexivity. }
  destruct (handleSubmit_request_from_form _ _ _ _ _ _ Hin) as (data & s & _ & _ & _ & Hu).
  exists userData. split; [exact Hin|]. rewrite Hu. repeat split.
Defined.

(** * Further properties of App.js and Login.js *)

(** X12: at start-up with a stored non-empty token that the server
    accepts, the session is authenticated with the fetched profile, the token
    stays stored, one call is made, and the welcome screen greets the
    profile's username. *)
Theorem checkAuth_valid_token api w profile :
  truthy (localStorage w !! authToken) = true →
  reply_getCurrentUser api (exchanges w) (localStorage w) = inr profile →
  ∃ w',
    App_checkAuth api w = (Returned tt, w')
    ∧ Authenticated profile (appState w')
    ∧ localStorage w' = localStorage w
    ∧ exchanges w' = exchanges w ++ [(getCurrentUser, None)]
    ∧ App_render (appState w') = WelcomeScreen (profile_username profile).
Proof.
  intros Ht Hr. destruct w as [stored xs rs ls s]. cbn -[authToken] in Ht, Hr.
  run_handler. rewrite Ht. cbn -[authToken lit]. rewrite Hr. cbn -[authToken lit].
  eexists. split; [reflexivity|]. repeat split.
Qed.

Lemma checkAuth_valid_token_witness :
  ∃ w',
    App_checkAuth (server 1) (loaded {[authToken := lit "jwt"]}) = (Returned tt, w')
    ∧ Authenticated {| profile_username := lit "alice"; profile_fields := [] |}
                    (appState w')
    ∧ localStorage w' = {[authToken := lit "jwt"]}
    ∧ exchanges w' = [(getCurrentUser, None)]
    ∧ App_render (appState w') = WelcomeScreen (lit "alice").
Proof.
  assert (truthy (localStorage (loaded {[authToken := lit "jwt"]}) !! authToken) = true)
    as Ht by (vm_compute; reflexivity).
  exact (checkAuth_valid_token (server 1) (loaded {[authToken := lit "jwt"]})
           {| profile_username := lit "alice"; profile_fields := [] |} Ht eq_refl).
Defined.

(** X13: [checkAuth] never throws and always ends the loading screen; it
    makes at most one call, the current-user call; it leaves every other key
    of [localStorage] and the other components alone. *)
Theorem checkAuth_total api w :
  ∃ w',
    App_checkAuth api w = (Returned tt, w')
    ∧ App.loading (appState w') = false
    ∧ App_render (appState w') ≠ LoadingScreen
    ∧ (∀ key, key ≠ authToken → localStorage w' !! key = localStorage w !! key)
    ∧ registerState w' = registerState w
    ∧ loginState w' = loginState w
    ∧ (exchanges w' = exchanges w
       ∨ ∃ r, exchanges w' = exchanges w ++ [(getCurrentUser, r)]).
Proof.
  destruct w as [stored xs rs ls s]. run_handler.
  destruct (truthy (stored !! authToken)); cbn -[authToken lit].
  - destruct (reply_getCurrentUser api xs stored) as [e|data]; cbn -[authToken lit];
      eexists; (split; [reflexivity|]); cbn -[authToken lit].
    + split; [done|]. split.
      { unfold App_render. cbn. by destruct (App.isLoggedIn s). }
      split; [intros key Hk; by apply lookup_delete_ne|]. eauto 6.
    + split; [done|]. split; [done|]. eauto 6.
  - eexists. split; [reflexivity|]. cbn. split; [done|]. split.
    { unfold App_render. cbn. by destruct (App.isLoggedIn s). }
    eauto 6.
Qed.

(** X14: what the user sees once the start-up check is over: the welcome
    screen with the profile's username when a non-empty token was stored and
    accepted, and the authentication screen with the login form in every
    other case. *)
Theorem checkAuth_first_screen api w :
  appState w = App.initial →
  App_render (appState (App_checkAuth api w).2)
  = if truthy (localStorage w !! authToken)
    then match reply_getCurrentUser api (exchanges w) (localStorage w) with
         | inr profile => WelcomeScreen (profile_username profile)
         | inl _ => AuthenticationScreen false
         end
    else AuthenticationScreen false.
Proof.
  intros Hinit. destruct w as [stored xs rs ls s]. cbn in Hinit. subst s.
  run_handler. destruct (truthy (stored !! authToken)); cbn -[authToken lit]; [|done].
  destruct (reply_getCurrentUser api xs stored); reflexivity.
Qed.

Lemma checkAuth_first_screen_witness :
  App_render (appState (App_checkAuth (server 1) (loaded {[authToken := lit "jwt"]})).2)
  = WelcomeScreen (lit "alice")
  ∧ App_render
      (appState (App_checkAuth (server 1) (loaded {[authToken := lit "stale"]})).2)
    = AuthenticationScreen false
  ∧ App_render (appState (App_checkAuth (server 1) (loaded ∅)).2)
    = AuthenticationScreen false.
Proof.
  rewrite !checkAuth_first_screen by reflexivity. vm_compute. repeat split.
Defined.

(** X15: a falsy stored token, absent or the empty string, is not
    validated and not removed: [checkAuth] makes no call and leaves
    [localStorage] as it is. *)
Theorem checkAuth_falsy_token api w :
  truthy (localStorage w !! authToken) = false →
  ∃ w',
    App_checkAuth api w = (Returned tt, w')
    ∧ localStorage w' = localStorage w
    ∧ exchanges w' = exchanges w
    ∧ appState w' = App.setLoading false (appState w).
Proof.
  intros Ht. destruct w as [stored xs rs ls s]. cbn -[authToken] in Ht.
  run_handler. rewrite Ht. cbn. eexists. repeat split.
Qed.

Lemma checkAuth_falsy_token_witness :
  ∃ w',
    App_checkAuth (server 1) (loaded {[authToken := []]}) = (Returned tt, w')
    ∧ localStorage w' !! authToken = Some []
    ∧ exchanges w' = [].
Proof.
  destruct (checkAuth_falsy_token (server 1) (loaded {[authToken := []]}))
    as (w' & Hrun & Hl & Hx & _); [vm_compute; reflexivity|].
  exists w'. split; [exact Hrun|]. rewrite Hl, Hx. split; [|reflexivity].
  cbn -[authToken]. apply lookup_singleton_eq.
Defined.

(** X16: after a logout the next page load finds no token: it makes no
    call, and shows the authentication screen with the login form. *)
Theorem logout_then_reload api w :
  let w1 := (App_handleLogout w).2 in
  let w2 := (App_checkAuth api (reload w1)).2 in
  exchanges w2 = exchanges w
  ∧ localStorage w2 !! authToken = None
  ∧ Anonymous (appState w2)
  ∧ App_render (appState w2) = AuthenticationScreen false.
Proof.
  destruct w as [stored xs rs ls s]. cbn zeta. unfold reload. run_handler.
  rewrite lookup_delete_eq. cbn -[authToken]. rewrite lookup_delete_eq. done.
Qed.

(** X17: a session survives a page load: after a login that returned a
    non-empty token which [localStorage] took, the next start-up check, if the
    server accepts the token, authenticates the session with the profile it
    fetches and shows the welcome screen, whether or not the profile fetch
    right after the login had succeeded. *)
Theorem login_then_reload api w access_token profile :
  reply_loginUser api (exchanges w) (Login.username (loginState w))
                  (Login.password (loginState w)) = inr access_token →
  storage_full api (localStorage w) authToken access_token = false →
  access_token ≠ [] →
  reply_getCurrentUser api (exchanges (login api w).2) (localStorage (login api w).2)
  = inr profile →
  let w2 := (App_checkAuth api (reload (login api w).2)).2 in
  Authenticated profile (appState w2)
  ∧ localStorage w2 !! authToken = Some access_token
  ∧ App_render (appState w2) = WelcomeScreen (profile_username profile).
Proof.
  intros Hl Hq Hne Hp. pose proof (login_cases api w) as H. cbn zeta in H.
  rewrite Hl, Hq in H.
  assert (∃ xs, (login api w).2
                = {| localStorage := <[authToken := access_token]> (localStorage w);
                     exchanges := xs; registerState := registerState w;
                     loginState := loginState (login api w).2;
                     appState := appState (login api w).2 |}) as [xs Hw1].
  { destruct (reply_getCurrentUser api (exchanges w ++ _) _);
      eexists; rewrite H; reflexivity. }
  rewrite Hw1 in Hp |- *. cbn [exchanges localStorage] in Hp.
  cbn zeta. unfold reload. run_handler.
  rewrite lookup_insert_eq.
  destruct access_token as [|c t]; [done|]. cbn -[authToken lit].
  rewrite Hp. cbn -[authToken lit].
  split; [done|]. split; [apply lookup_insert_eq | reflexivity].
Qed.

Lemma login_then_reload_witness :
  let w2 := (App_checkAuth (server 1) (reload (login (server 1) (typed ∅)).2)).2 in
  Authenticated {| profile_username := lit "alice"; profile_fields := [] |} (appState w2)
  ∧ localStorage w2 !! authToken = Some (lit "jwt")
  ∧ App_render (appState w2) = WelcomeScreen (lit "alice").
Proof.
  assert (lit "jwt" ≠ []) as Hne by discriminate.
  assert (reply_getCurrentUser (server 1) (exchanges (login (server 1) (typed ∅)).2)
            (localStorage (login (server 1) (typed ∅)).2)
          = inr {| profile_username := lit "alice"; profile_fields := [] |}) as Hp.
  { vm_compute. reflexivity. }
  exact (login_then_reload (server 1) (typed ∅) (lit "jwt") _ eq_refl eq_refl Hne Hp).
Defined.

(** X18: Login used without the [onLoginSuccess] callback, the login
    being accepted: when [localStorage] takes the returned token it is stored,
    replacing any earlier one, and the error is cleared; when [setItem] throws
    because the storage is full, nothing is stored and the form shows
    "Login failed: Unknown error".  Either way no further call is made and
    the state of App is left alone. *)
Theorem Login_handleSubmit_without_callback api w access_token :
  reply_loginUser api (exchanges w) (Login.username (loginState w))
                  (Login.password (loginState w)) = inr access_token →
  ∃ w',
    Login_handleSubmit api None w = (Returned tt, w')
    ∧ appState w' = appState w
    ∧ exchanges w'
      = exchanges w ++ [(loginUser (Login.username (loginState w))
                                   (Login.password (loginState w)), None)]
    ∧ (storage_full api (localStorage w) authToken access_token = false →
       localStorage w' = <[authToken := access_token]> (localStorage w)
       ∧ localStorage w' !! authToken = Some access_token
       ∧ Login.error (loginState w') = [])
    ∧ (storage_full api (localStorage w) authToken access_token = true →
       localStorage w' = localStorage w
       ∧ Login.error (loginState w') = lit "Login failed: Unknown error").
Proof.
  intros Hl. destruct w as [stored xs rs ls s]. cbn -[authToken] in Hl |- *.
  run_handler. rewrite Hl. cbn -[authToken lit].
  destruct (storage_full api stored authToken access_token); cbn -[authToken lit];
    eexists; (split; [reflexivity|]); cbn -[authToken lit];
    (split; [done|]); (split; [done|]); split; try done.
  intros _. split; [done|]. split; [apply lookup_insert_eq | done].
Qed.

Lemma Login_handleSubmit_without_callback_witness :
  (∃ w',
     Login_handleSubmit (server 1) None (typed {[authToken := lit "old"]})
     = (Returned tt, w')
     ∧ localStorage w' !! authToken = Some (lit "jwt")
     ∧ Login.error (loginState w') = [])
  ∧ (∃ w',
       Login_handleSubmit server_storage_full None (typed {[authToken := lit "old"]})
       = (Returned tt, w')
       ∧ localStorage w' = {[authToken := lit "old"]}
       ∧ Login.error (loginState w') = lit "Login failed: Unknown error").
Proof.
  split.
  - destruct (Login_handleSubmit_without_callback (server 1)
                (typed {[authToken := lit "old"]}) (lit "jwt") eq_refl)
      as (w' & Hrun & _ & _ & Hfits & _).
    exists w'. split; [exact Hrun|].
    destruct (Hfits eq_refl) as (_ & Ht & He). split; [exact Ht | exact He].
  - destruct (Login_handleSubmit_without_callback server_storage_full
                (typed {[authToken := lit "old"]}) (lit "jwt") eq_refl)
      as (w' & Hrun & _ & _ & _ & Hfull).
    exists w'. split; [exact Hrun|].
    destruct (Hfull eq_refl) as (Hs & He). split; [exact Hs | exact He].
Defined.

(** X19: [login] never throws and stays within its own concern: it sends
    the username and password of the form, asks for the profile only after
    the login was accepted, writes no key of [localStorage] but the token,
    and leaves the typed credentials and the state of Register alone. *)
Theorem login_frame api w :
  ∃ w',
    login api w = (Returned tt, w')
    ∧ registerState w' = registerState w
    ∧ Login.username (loginState w') = Login.username (loginState w)
    ∧ Login.password (loginState w') = Login.password (loginState w)
    ∧ (∀ key, key ≠ authToken → localStorage w' !! key = localStorage w !! key)
    ∧ ∃ r,
        exchanges w'
        = exchanges w ++ [(loginUser (Login.username (loginState w))
                                     (Login.password (loginState w)), r)]
        ∨ ∃ r',
            r = None
            ∧ exchanges w'
              = exchanges w ++ [(loginUser (Login.username (loginState w))
                                           (Login.password (loginState w)), r);
                                (getCurrentUser, r')].
Proof.
  pose proof (login_cases api w) as H. cbn zeta in H.
  destruct (reply_loginUser api _ _ _) as [e|tok].
  { eexists. split; [exact H|]. cbn. repeat split. eauto. }
  destruct (storage_full api _ _ tok).
  { eexists. split; [exact H|]. cbn. repeat split. eauto. }
  destruct (reply_getCurrentUser api _ _) as [e|profile];
    eexists; (split; [exact H|]); cbn -[authToken]; rewrite <- app_assoc;
    (repeat split; [by intros key Hk; apply lookup_insert_ne|]);
    exists None; right; eauto.
Qed.

(** X20: [handleLogout] makes no call to the server, removes no key of
    [localStorage] but the token, leaves the other components alone, and
    brings back the authentication screen with the form that was shown
    last. *)
Theorem handleLogout_frame w :
  let w' := (App_handleLogout w).2 in
  exchanges w' = exchanges w
  ∧ (∀ key, key ≠ authToken → localStorage w' !! key = localStorage w !! key)
  ∧ registerState w' = registerState w
  ∧ loginState w' = loginState w
  ∧ (App.loading (appState w) = false →
     App_render (appState w') = AuthenticationScreen (App.showRegister (appState w))).
Proof.
  destruct w as [stored xs rs ls s]. cbn zeta. run_handler.
  repeat split; [by intros key Hk; apply lookup_delete_ne|].
  intros Hl. unfold App_render. cbn. by rewrite Hl.
Qed.

(** * Further properties of the Register component *)

Lemma step_result_cleared c ev c' :
  (Register.loading (Machine.form c) = true → Register.result (Machine.form c) = None) →
  Machine.step c ev = Some c' →
  Register.loading (Machine.form c') = true → Register.result (Machine.form c') = None.
Proof.
  intros Hinv H Hl'. destruct c as [f l]; cbn in *.
  destruct ev; cbn -[String_repeat startsWith sha256_hex] in H;
    try (at_attempt H; destruct (Machine.phase a); try discriminate).
  - destruct (Register.button_disabled f || negb (Register.fields_filled f));
      [discriminate|]. by injection H as <-.
  - injection H as <-. cbn in *. auto.
  - injection H as <-. cbn in *. auto.
  - destruct (String_repeat _ _); injection H as <-; cbn in *; [discriminate | auto].
  - injection H as <-. cbn in Hl'. discriminate.
  - destruct (startsWith _ _); injection H as <-; cbn in *; auto.
  - injection H as <-. cbn in Hl'. discriminate.
  - injection H as <-. cbn in Hl'. discriminate.
Qed.

Lemma reachable_result_cleared c :
  Machine.reachable c →
  Register.loading (Machine.form c) = true → Register.result (Machine.form c) = None.
Proof.
  induction 1 as [|c ev c' _ IH Hstep]; [discriminate|].
  eapply step_result_cleared; eassumption.
Qed.

(** X21: what the form shows while it works: in every state the mounted
    component can reach, the button reads "Processing..." exactly while an
    invocation of [handleSubmit] is in flight and "Register" otherwise, and
    while one is in flight no result box, of this or an earlier attempt, is
    shown. *)
Theorem processing_display c :
  Machine.reachable c →
  (Machine.inflight c ≠ [] →
   Register_button_label (Machine.form c) = lit "Processing..."
   ∧ Register.button_disabled (Machine.form c) = true
   ∧ Register_result_box (Machine.form c) = None)
  ∧ (Machine.inflight c = [] →
     Register_button_label (Machine.form c) = lit "Register"
     ∧ Register.button_disabled (Machine.form c) = false).
Proof.
  intros Hr. pose proof (reachable_result_cleared c Hr) as Hres.
  unfold Register_button_label, Register_result_box, Register.button_disabled.
  destruct (reachable_guarded c Hr) as [[Hl Hi]|[Hl [a Hi]]]; rewrite Hi, Hl.
  - split; [done|]. done.
  - split; [|done]. intros _. by rewrite (Hres Hl).
Qed.

Lemma processing_display_witness :
  ∃ c,
    Machine.run Machine.mounted
      [Machine.TypeUsername (lit "alice"); Machine.TypePassword (lit "secret");
       Machine.Submit; Machine.ChallengeRejected 0 (AxiosError None);
       Machine.Submit] = Some c
    ∧ Register_button_label (Machine.form c) = lit "Processing..."
    ∧ Register_result_box (Machine.form c) = None.
Proof.
  set (evs := [Machine.TypeUsername (lit "alice"); Machine.TypePassword (lit "secret");
               Machine.Submit; Machine.ChallengeRejected 0 (AxiosError None);
               Machine.Submit]).
  destruct (Machine.run Machine.mounted evs) as [c|] eqn:Hrun; [|discriminate].
  exists c. split; [reflexivity|].
  pose proof (run_reachable _ _ _ Machine.reachable_mounted Hrun) as Hr.
  assert (Machine.inflight c ≠ []) as Hi.
  { vm_compute in Hrun. injection Hrun as <-. discriminate. }
  destruct (processing_display c Hr) as [Hbusy _].
  destruct (Hbusy Hi) as (Hlabel & _ & Hbox). split; [exact Hlabel | exact Hbox].
Defined.

(** The request of an invocation that has reached the submitting phase was
    built from the credentials the invocation captured. *)
Lemma step_request_captured c ev c' :
  guarded c →
  (∀ a userData token, Machine.inflight c = [a] →
     Machine.phase a = Machine.Submitting userData token →
     Request.username userData = Machine.username a
     ∧ Request.password userData = Machine.password a
     ∧ Request.active userData = false) →
  Machine.step c ev = Some c' →
  ∀ a userData token, Machine.inflight c' = [a] →
    Machine.phase a = Machine.Submitting userData token →
    Request.username userData = Machine.username a
    ∧ Request.password userData = Machine.password a
    ∧ Request.active userData = false.
Proof.
  intros [[Hl Hi]|[Hl [a0 Hi]]] Hinv H; destruct c as [f l]; cbn in *; subst l.
  - destruct ev; cbn in H; try discriminate.
    + destruct (Register.button_disabled f || negb (Register.fields_filled f));
        [discriminate|].
      injection H as <-. cbn. intros a ud tok [= <-]. discriminate.
    + injection H as <-. cbn. discriminate.
    + injection H as <-. cbn. discriminate.
  - specialize (Hinv a0). destruct ev; cbn -[String_repeat startsWith sha256_hex] in H;
      try (at_attempt H; apply lookup_singleton_Some in E as [-> ->];
           destruct (Machine.phase a0) eqn:Hp; try discriminate).
    + unfold Register.button_disabled in H. rewrite Hl in H. discriminate.
    + injection H as <-. cbn. intros a ud tok [= <-]. by apply Hinv.
    + injection H as <-. cbn. intros a ud tok [= <-]. by apply Hinv.
    + destruct (String_repeat _ _); injection H as <-; cbn; [discriminate|].
      intros a ud tok [= <-]. discriminate.
    + injection H as <-. cbn. discriminate.
    + destruct (startsWith _ _); injection H as <-;
        cbn -[sha256_hex Number_toString dataString];
        intros a ud tok [= <-]; cbn -[sha256_hex Number_toString dataString];
        [|discriminate].
      intros [= <- _]. done.
    + injection H as <-. cbn. discriminate.
    + injection H as <-. cbn. discriminate.
Qed.

Lemma reachable_request_captured c :
  Machine.reachable c →
  ∀ a userData token, Machine.inflight c = [a] →
    Machine.phase a = Machine.Submitting userData token →
    Request.username userData = Machine.username a
    ∧ Request.password userData = Machine.password a
    ∧ Request.active userData = false.
Proof.
  induction 1 as [|c ev c' Hr IH Hstep]; [discriminate|].
  eapply step_request_captured; [by apply reachable_guarded | exact IH | exact Hstep].
Qed.

(** X22: an invocation of [handleSubmit] works with the username and the
    password that were in the form when it was triggered: it captures them at
    the trigger, no later event changes them, whatever is typed meanwhile, and
    the registration request it builds carries them with [active: false]. *)
Theorem submitted_credentials_are_captured c :
  Machine.reachable c →
  (∀ c', Machine.step c Machine.Submit = Some c' →
     ∃ a, Machine.inflight c' = [a]
          ∧ Machine.username a = Register.username (Machine.form c)
          ∧ Machine.password a = Register.password (Machine.form c))
  ∧ (∀ a ev c', Machine.inflight c = [a] → Machine.step c ev = Some c' →
       Machine.inflight c' = []
       ∨ ∃ a', Machine.inflight c' = [a']
               ∧ Machine.username a' = Machine.username a
               ∧ Machine.password a' = Machine.password a)
  ∧ (∀ a userData token, Machine.inflight c = [a] →
       Machine.phase a = Machine.Submitting userData token →
       Request.username userData = Machine.username a
       ∧ Request.password userData = Machine.password a
       ∧ Request.active userData = false).
Proof.
  intros Hr. pose proof (reachable_guarded c Hr) as Hg.
  split; [|split; [|by apply reachable_request_captured]].
  - intros c' H. destruct Hg as [[Hl Hi]|[Hl _]]; cbn in H;
      unfold Register.button_disabled in H; rewrite Hl in H; [|discriminate].
    destruct (negb _); [discriminate|]. injection H as <-. cbn. rewrite Hi. eauto.
  - intros a ev c' Hi H. destruct c as [f l]. cbn in Hi. subst l.
    destruct Hg as [[_ [=]]|[Hl _]]. cbn in Hl.
    destruct ev; cbn -[String_repeat startsWith sha256_hex] in H;
      try (at_attempt H; apply lookup_singleton_Some in E as [-> ->];
           destruct (Machine.phase a); try discriminate).
    + unfold Register.button_disabled in H. rewrite Hl in H. discriminate.
    + injection H as <-. right. eauto.
    + injection H as <-. right. eauto.
    + destruct (String_repeat _ _); injection H as <-; [left | right]; cbn; eauto.
    + injection H as <-. by left.
    + destruct (startsWith _ _); injection H as <-; right;
        cbn -[sha256_hex Number_toString dataString]; eauto.
    + injection H as <-. by left.
    + injection H as <-. by left.
Qed.

Lemma submitted_credentials_are_captured_witness :
  ∃ c a userData,
    Machine.run Machine.mounted
      [Machine.TypeUsername (lit "alice"); Machine.TypePassword (lit "secret");
       Machine.Submit; Machine.TypeUsername (lit "mallory");
       Machine.ChallengeResolved 0
         {| Challenge.challenge := lit "abc123"; Challenge.difficulty := 0;
            Challenge.token := lit "tok" |};
       Machine.SolverIteration 0] = Some c
    ∧ Register.username (Machine.form c) = lit "mallory"
    ∧ Machine.inflight c = [a]
    ∧ Machine.phase a = Machine.Submitting userData (lit "tok")
    ∧ Machine.username a = lit "alice"
    ∧ Request.username userData = Machine.username a
    ∧ Request.password userData = Machine.password a
    ∧ Request.active userData = false.
Proof.
  set (evs := [Machine.TypeUsername (lit "alice"); Machine.TypePassword (lit "secret");
               Machine.Submit; Machine.TypeUsername (lit "mallory");
               Machine.ChallengeResolved 0
                 {| Challenge.challenge := lit "abc123"; Challenge.difficulty := 0;
                    Challenge.token := lit "tok" |};
               Machine.SolverIteration 0]).
  destruct (Machine.run Machine.mounted evs) as [c|] eqn:Hrun; [|discriminate].
  pose proof (run_reachable _ _ _ Machine.reachable_mounted Hrun) as Hr.
  destruct (submitted_credentials_are_captured c Hr) as (_ & _ & Hreq).
  vm_compute in Hrun. injection Hrun as Hc.
  eexists c, _, _. split; [reflexivity|].
  rewrite <- Hc in Hreq |- *. cbn [Machine.form Machine.inflight] in Hreq |- *.
  split; [reflexivity|]. split; [reflexivity|]. split; [reflexivity|].
  split; [reflexivity|]. exact (Hreq _ _ _ eq_refl eq_refl).
Defined.

(** * api.js *)

(** X23: the registration request is a POST of the user data to the fixed
    register endpoint followed by the token exactly as it was received,
    without any escaping: the token is what follows the first 43 characters of
    the URL, two different tokens never give the same URL, and the URL is
    never that of the challenge request. *)
Theorem api_registerUser_url userData token :
  url (api_registerUser userData token)
  = lit "http://127.0.0.1:8000/users/register?token=" ++ token
  ∧ drop 43 (url (api_registerUser userData token)) = token
  ∧ (∀ userData' token',
       url (api_registerUser userData token) = url (api_registerUser userData' token') →
       token = token')
  ∧ url (api_registerUser userData token) ≠ url api_getChallenge
  ∧ method (api_registerUser userData token) = POST
  ∧ body (api_registerUser userData token) = Some userData.
Proof.
  assert (url (api_registerUser userData token)
          = lit "http://127.0.0.1:8000/users/register?token=" ++ token) as Hu.
  { unfold api_registerUser, API_URL. cbn [url]. by rewrite app_assoc. }
  split; [exact Hu|]. split.
  { rewrite Hu. reflexivity. }
  split.
  { intros userData' token' H. unfold api_registerUser in H. cbn [url] in H.
    by do 2 apply app_inv_head in H. }
  split; [|done].
  rewrite Hu. intros H. apply (f_equal (take 29)) in H. vm_compute in H. discriminate.
Qed.
